(** * Top-K user aggregation: aggregator and api-server

    A shallow embedding of two Go services of the repository,
    [services/aggregator/main.go] (Redis-Bloom deduplication, in-memory
    counting, flush to the Cassandra counter table, Kafka offset commit)
    and [services/api-server/main.go] (the read endpoint
    [GET /users/{user_id}/topk]), together with the properties the
    specification states about them; then the aggregator before
    deduplication, the crawl worker ([services/crawl-worker/tasks/crawl.go])
    and the raw event processor ([services/raw-event-processor/main.go]),
    with further properties of the code. *)

From Stdlib Require Import ZArith Lia Ascii String DecimalString.
From Stdlib Require DecimalPos DecimalZ.
From stdpp Require Import gmap strings list fin_maps sorting.

Local Open Scope Z_scope.

Set Warnings "-clear-no-such-hyp".

(** ** Go's [int64] (and [int] on 64-bit targets) *)

Module Int64.
Definition min_int : Z := - 2 ^ 63.
Definition max_int : Z := 2 ^ 63 - 1.

(** Two's-complement wrap-around of a mathematical integer. *)
Definition wrap (z : Z) : Z := (z + 2 ^ 63) mod 2 ^ 64 - 2 ^ 63.

Definition add (a b : Z) : Z := wrap (a + b).

Definition in_range (z : Z) : Prop := min_int <= z <= max_int.
End Int64.

(** ** Errors: Go's [(value, error)] results *)

Inductive result (A : Type) : Type :=
| Ok (a : A)
| Err (msg : string).
Arguments Ok {A} a.
Arguments Err {A} msg.

(** ** Strings: the pieces of [strings], [strconv] and [fmt] the services use *)

Module GoStrings.
(** [strings.TrimPrefix]. *)
Fixpoint strip_prefix (p s : string) : option string :=
  match p, s with
  | EmptyString, _ => Some s
  | String a p', String b s' =>
      if Ascii.eqb a b then strip_prefix p' s' else None
  | String _ _, EmptyString => None
  end.

Definition TrimPrefix (s p : string) : string :=
  match strip_prefix p s with
  | Some rest => rest
  | None => s
  end.

(** [strings.Split s sep] for a one-byte separator: the fields between
    the separators, empty fields included. *)
Fixpoint split_on (sep : ascii) (cur : string) (s : string) : list string :=
  match s with
  | EmptyString => [String.rev cur]
  | String c s' =>
      if Ascii.eqb c sep then String.rev cur :: split_on sep EmptyString s'
      else split_on sep (String c cur) s'
  end.

Definition Split (s : string) (sep : ascii) : list string :=
  split_on sep EmptyString s.

(** [%d] of [fmt.Sprintf]. *)
Definition itoa (z : Z) : string := NilZero.string_of_int (Z.to_int z).

Definition digit_of (c : ascii) : option Z :=
  let n := Z.of_nat (nat_of_ascii c) in
  if (48 <=? n) && (n <=? 57) then Some (n - 48) else None.

Fixpoint parse_digits (acc : Z) (s : string) : option Z :=
  match s with
  | EmptyString => Some acc
  | String c s' =>
      match digit_of c with
      | Some d => parse_digits (10 * acc + d) s'
      | None => None
      end
  end.

(** [strconv.Atoi]: an optional sign, then one or more decimal digits;
    a value outside [int] is a range error. *)
Definition Atoi (s : string) : result Z :=
  let unsigned (neg : bool) (ds : string) :=
    match ds with
    | EmptyString => Err "invalid syntax"
    | _ =>
        match parse_digits 0 ds with
        | None => Err "invalid syntax"
        | Some n =>
            let v := if neg then - n else n in
            if (Int64.min_int <=? v) && (v <=? Int64.max_int) then Ok v
            else Err "value out of range"
        end
    end in
  match s with
  | EmptyString => Err "invalid syntax"
  | String "-"%char ds => unsigned true ds
  | String "+"%char ds => unsigned false ds
  | _ => unsigned false s
  end.
End GoStrings.

(** ** JSON text: [encoding/json] (Go 1.22) on strings, numbers, booleans,
       objects and arrays. Bytes from 0x80 up are copied, which is what Go
       does for valid UTF-8 other than U+2028 and U+2029. *)

Module GoJson.
Definition chr (n : nat) : string := String (ascii_of_nat n) EmptyString.
Definition quote : string := chr 34.
Definition backslash : string := chr 92.

Definition hex (n : nat) : string :=
  chr (if (n <? 10)%nat then 48 + n else 87 + n)%nat.

Definition escape_byte (c : ascii) : string :=
  let n := nat_of_ascii c in
  if (n =? 34)%nat then backslash +:+ quote
  else if (n =? 92)%nat then backslash +:+ backslash
  else if (n =? 8)%nat then backslash +:+ "b"
  else if (n =? 12)%nat then backslash +:+ "f"
  else if (n =? 10)%nat then backslash +:+ "n"
  else if (n =? 13)%nat then backslash +:+ "r"
  else if (n =? 9)%nat then backslash +:+ "t"
  else if ((n <? 32) || (n =? 60) || (n =? 62) || (n =? 38))%nat then
    backslash +:+ "u00" +:+ hex (n / 16) +:+ hex (n mod 16)
  else String c EmptyString.

Fixpoint escape (s : string) : string :=
  match s with
  | EmptyString => EmptyString
  | String c s' => escape_byte c +:+ escape s'
  end.

Definition str (s : string) : string := quote +:+ escape s +:+ quote.
Definition field (name value : string) : string := str name +:+ ":" +:+ value.
Definition object (fields : list string) : string :=
  "{" +:+ String.concat "," fields +:+ "}".
Definition array (items : list string) : string :=
  "[" +:+ String.concat "," items +:+ "]".
Definition bool (b : bool) : string := if b then "true" else "false".
End GoJson.

(** ** Time: [time.Unix], [Time.UTC], [Time.Truncate], [Time.AddDate]
       and [Time.Format "2006-01-02"] *)

Module GoTime.
(** A [*time.Location], seen through its one observable: the offset
    (seconds east of UTC) in effect at a Unix instant. *)
Definition Location : Type := Z → Z.

Definition UTC : Location := λ _, 0.

(** Civil day number (days since 1970-01-01) of the instant [sec] as
    read in location [loc]. *)
Definition civil_day (loc : Location) (sec : Z) : Z := (sec + loc sec) `div` 86400.

(** Proleptic Gregorian date of a civil day number. *)
Definition date_of_day (day : Z) : Z * Z * Z :=
  let z := day + 719468 in
  let era := z `div` 146097 in
  let doe := z - era * 146097 in
  let yoe := (doe - doe `div` 1460 + doe `div` 36524 - doe `div` 146096) `div` 365 in
  let doy := doe - (365 * yoe + yoe `div` 4 - yoe `div` 100) in
  let mp := (5 * doy + 2) `div` 153 in
  let d := doy - (153 * mp + 2) `div` 5 + 1 in
  let m := if mp <? 10 then mp + 3 else mp - 9 in
  let y := yoe + era * 400 + (if m <=? 2 then 1 else 0) in
  (y, m, d).

(** Zero-padded decimal of a non-negative number. *)
Definition pad (width : nat) (n : Z) : string :=
  let s := GoStrings.itoa n in
  String.concat "" (replicate (width - String.length s)%nat "0"%string) +:+ s.

(** Layout ["2006-01-02"], for years 0 to 9999. *)
Definition format_day (day : Z) : string :=
  let '(y, m, d) := date_of_day day in
  pad 4 y +:+ "-" +:+ pad 2 m +:+ "-" +:+ pad 2 d.

(** [time.Unix(sec, 0).Format("2006-01-02")] with [time.Local = loc]:
    [time.Unix] returns a local [Time], and [Format] prints the date in
    the [Time]'s own location. *)
Definition Unix_Format (loc : Location) (sec : Z) : string :=
  format_day (civil_day loc sec).

(** [time.Unix(sec, 0).UTC().Format("2006-01-02")]: the UTC calendar day
    that contains the instant. *)
Definition utc_day (sec : Z) : string := format_day (civil_day UTC sec).

(** [now.UTC().Truncate(24 * time.Hour)], as a civil day number. *)
Definition today_utc (now : Z) : Z := civil_day UTC now.

(** [t.AddDate(0, 0, -i).Format("2006-01-02")] for a UTC midnight [t]. *)
Definition day_before (today : Z) (i : Z) : string := format_day (today - i).
End GoTime.


(** ** RedisBloom, as the aggregator drives it *)

(** The hash family of the Bloom filters: the bit positions an item sets. *)
Class BloomHash := bloom_positions : string → gset N.

Module RedisBloom.
Record Filter := { bits : gset N; ttl : option Z }.

Inductive Reply :=
| RInt (v : Z)
| RBool (b : bool)
| RStatus (s : string).

Definition empty_filter : Filter := {| bits := ∅; ttl := None |}.

(** [BF.RESERVE key error_rate capacity NONSCALING]. *)
Definition RESERVE (srv : gmap string Filter) (key : string)
  : gmap string Filter * result Reply :=
  match srv !! key with
  | Some _ => (srv, Err "ERR item exists")
  | None => (<[key := empty_filter]> srv, Ok (RStatus "OK"))
  end.

(** [EXPIRE key seconds]. *)
Definition EXPIRE (srv : gmap string Filter) (key : string) (secs : Z)
  : gmap string Filter :=
  alter (λ f, {| bits := bits f; ttl := Some secs |}) key srv.

(** Membership test of a filter: every position of the item is set. *)
Definition mem `{BloomHash} (f : Filter) (item : string) : bool :=
  bool_decide (bloom_positions item ⊆ bits f).

(** [BF.ADD key item]: answers whether the item was added, that is,
    whether it was not already reported present; a missing filter is
    created. *)
Definition ADD `{BloomHash} (srv : gmap string Filter) (key item : string)
  : gmap string Filter * bool :=
  let f := default empty_filter (srv !! key) in
  (<[key := {| bits := bits f ∪ bloom_positions item; ttl := ttl f |}]> srv,
   negb (mem f item)).
End RedisBloom.

(** How one [accumulate] call finds Redis: whether each of its two
    commands is answered without error (an error is a connection failure
    or an error reply, and leaves the filters as they were), and how
    go-redis decodes the reply of [BF.ADD] (an integer under RESP2, a
    boolean under RESP3). *)
Inductive Wire := Resp2 | Resp3 | Unexpected.

Record RedisEnv := {
  reserve_reachable : bool;
  add_reachable : bool;
  add_wire : Wire
}.

(** ** The aggregator ([services/aggregator/main.go]) *)

Record ListenEvent := {
  EventID : string;
  UserID : string;
  SongID : string;
  Provider : string;
  ListenedAt : Z
}.

Record AggregateKey := {
  KeyUserID : string;
  KeyDay : string;
  KeySongID : string
}.

#[global] Instance AggregateKey_eq_dec : EqDecision AggregateKey.
Proof. solve_decision. Defined.

#[global] Instance AggregateKey_countable : Countable AggregateKey.
Proof.
  refine (inj_countable' (λ k, (KeyUserID k, KeyDay k, KeySongID k))
            (λ t, {| KeyUserID := t.1.1; KeyDay := t.1.2; KeySongID := t.2 |}) _).
  by intros [].
Defined.

(** A [kafka.Message], with the fields the aggregator reads. *)
Record Message := {
  Partition : Z;
  Offset : Z;
  Value : string
}.

(** [json.Unmarshal(msg.Value, &event)]. *)
Class JsonDecoder := json_Unmarshal : string → result ListenEvent.

Record Aggregator := {
  counts : gmap AggregateKey Z;
  lastMsg : Message;
  hasMsg : bool;
  dedupCount : Z
}.

(** What the aggregator talks to: the Redis server holding the Bloom
    filters, the Cassandra counter table [user_daily_topk] keyed by
    [(user_id, day, song_id)], and the consumer group's committed offset
    per partition. *)
Record World := {
  redis : gmap string RedisBloom.Filter;
  cassandra : gmap (string * string * string) Z;
  committed : gmap Z Z
}.

Definition bloomCapacity : Z := 10000000.
Definition bloomTTLDays : Z := 8.

Definition bloomKey (day : string) : string := "dedup:" +:+ day.

(** [strings.Contains]. *)
Fixpoint Contains (s sub : string) : bool :=
  match GoStrings.strip_prefix sub s with
  | Some _ => true
  | None =>
      match s with
      | EmptyString => false
      | String _ s' => Contains s' sub
      end
  end.

(** [redis.Do(ctx, "BF.RESERVE", ...)], [redis.Expire] and
    [redis.Do(ctx, "BF.ADD", ...)] as seen by the client. *)
Definition do_RESERVE (reachable : bool) (srv : gmap string RedisBloom.Filter) (key : string)
  : gmap string RedisBloom.Filter * result RedisBloom.Reply :=
  if reachable then RedisBloom.RESERVE srv key
  else (srv, Err "dial tcp: connection refused").

Definition do_ADD `{BloomHash} (env : RedisEnv) (srv : gmap string RedisBloom.Filter)
    (key item : string) : gmap string RedisBloom.Filter * result RedisBloom.Reply :=
  if add_reachable env then
    let '(srv', added) := RedisBloom.ADD srv key item in
    (srv', Ok (match add_wire env with
               | Resp2 => RedisBloom.RInt (if added then 1 else 0)
               | Resp3 => RedisBloom.RBool added
               | Unexpected => RedisBloom.RStatus "OK"
               end))
  else (srv, Err "dial tcp: connection refused").

Definition ensureBloomFilter (env : RedisEnv) (srv : gmap string RedisBloom.Filter)
    (day : string) : gmap string RedisBloom.Filter * result unit :=
  let key := bloomKey day in
  match do_RESERVE (reserve_reachable env) srv key with
  | (srv', Err msg) =>
      if negb (Contains msg "item exists") then (srv', Err msg)
      else (srv', Ok ())
  | (srv', Ok _) =>
      let ttl := bloomTTLDays * 24 * 3600 in
      (RedisBloom.EXPIRE srv' key ttl, Ok ())
  end.

(** Returns [Ok true] when the item was already seen, or possibly seen. *)
Definition checkAndAddToBloom `{BloomHash} (env : RedisEnv)
    (srv : gmap string RedisBloom.Filter) (day eventID : string)
  : gmap string RedisBloom.Filter * result bool :=
  let key := bloomKey day in
  let '(srv1, _) := ensureBloomFilter env srv day in
  match do_ADD env srv1 key eventID with
  | (srv2, Err msg) => (srv2, Err msg)
  | (srv2, Ok (RedisBloom.RInt v)) => (srv2, Ok (v =? 0))
  | (srv2, Ok (RedisBloom.RBool v)) => (srv2, Ok (negb v))
  | (srv2, Ok _) => (srv2, Err "unexpected type from BF.ADD")
  end.

(** The day an event is credited to. [loc] is the process's [time.Local]. *)
Definition event_day (loc : GoTime.Location) (event : ListenEvent) : string :=
  GoTime.Unix_Format loc (ListenedAt event).

Definition event_key (loc : GoTime.Location) (event : ListenEvent) : AggregateKey :=
  {| KeyUserID := UserID event; KeyDay := event_day loc event; KeySongID := SongID event |}.

(** [a.counts[key]++]. *)
Definition incr (key : AggregateKey) (m : gmap AggregateKey Z) : gmap AggregateKey Z :=
  <[key := Int64.add (default 0 (m !! key)) 1]> m.

Definition accumulate `{BloomHash} (loc : GoTime.Location) (env : RedisEnv)
    (st : World * Aggregator) (event : ListenEvent) (msg : Message)
  : World * Aggregator :=
  let '(w, a) := st in
  let day := event_day loc event in
  let '(srv, dup) := checkAndAddToBloom env (redis w) day (EventID event) in
  let w' := {| redis := srv; cassandra := cassandra w; committed := committed w |} in
  match dup with
  | Ok true =>
      (w', {| counts := counts a; lastMsg := msg; hasMsg := true;
              dedupCount := Int64.add (dedupCount a) 1 |})
  | _ =>
      (w', {| counts := incr (event_key loc event) (counts a); lastMsg := msg;
              hasMsg := true; dedupCount := dedupCount a |})
  end.

(** [reader.CommitMessages(ctx, msg)]: the group's committed offset of the
    message's partition becomes the offset after the message. *)
Definition CommitMessages (fails : bool) (k : gmap Z Z) (msg : Message) : gmap Z Z :=
  if fails then k else <[Partition msg := Offset msg + 1]> k.

(** [UPDATE user_daily_topk SET listen_count = listen_count + ? WHERE
    user_id = ? AND day = ? AND song_id = ?] on the counter table. *)
Definition primary_key (key : AggregateKey) : string * string * string :=
  (KeyUserID key, KeyDay key, KeySongID key).

Definition update_counter (key : AggregateKey) (delta : Z)
    (tbl : gmap (string * string * string) Z) : gmap (string * string * string) Z :=
  let pk := primary_key key in
  <[pk := Int64.add (default 0 (tbl !! pk)) delta]> tbl.

(** How one [flush] call finds its backends: the keys whose [UPDATE]
    fails, and whether the offset commit fails. *)
Record FlushEnv := {
  write_fails : AggregateKey → bool;
  commit_fails : bool
}.

(** The body of the write loop: a failed [UPDATE] is logged and the loop
    goes on with the other keys. *)
Definition flush_write (env : FlushEnv) (key : AggregateKey) (delta : Z)
    (tbl : gmap (string * string * string) Z) : gmap (string * string * string) Z :=
  if write_fails env key then tbl else update_counter key delta tbl.

Definition flush (env : FlushEnv) (st : World * Aggregator) : World * Aggregator :=
  let '(w, a) := st in
  if bool_decide (size (counts a) = 0%nat) && negb (hasMsg a) then (w, a)
  else
    let tbl := map_fold (flush_write env) (cassandra w) (counts a) in
    let k :=
      if hasMsg a then CommitMessages (commit_fails env) (committed w) (lastMsg a)
      else committed w in
    ({| redis := redis w; cassandra := tbl; committed := k |},
     {| counts := ∅; lastMsg := lastMsg a; hasMsg := false; dedupCount := 0 |}).

(** One turn of the consumer: either the message loop of [main] handles a
    fetched message, or the ticker goroutine flushes. *)
Inductive Step :=
| Fetch (msg : Message) (env : RedisEnv) (commit_fails : bool)
| Tick (env : FlushEnv).

Definition step `{BloomHash} `{JsonDecoder} (loc : GoTime.Location)
    (st : World * Aggregator) (s : Step) : World * Aggregator :=
  match s with
  | Fetch msg env cf =>
      match json_Unmarshal (Value msg) with
      | Err _ =>
          let '(w, a) := st in
          ({| redis := redis w; cassandra := cassandra w;
              committed := CommitMessages cf (committed w) msg |}, a)
      | Ok event => accumulate loc env st event msg
      end
  | Tick env => flush env st
  end.

Definition run `{BloomHash} `{JsonDecoder} (loc : GoTime.Location)
    (st : World * Aggregator) (steps : list Step) : World * Aggregator :=
  foldl (step loc) st steps.

(** ** Vocabulary of the properties *)

(** The bits of the filter stored at a Redis key; none when the key is
    missing. *)
Definition bits_at (srv : gmap string RedisBloom.Filter) (key : string) : gset N :=
  RedisBloom.bits (default RedisBloom.empty_filter (srv !! key)).

(** The day's filter reports the event id present. *)
Definition seen `{BloomHash} (srv : gmap string RedisBloom.Filter) (day eventID : string) : bool :=
  bool_decide (bloom_positions eventID ⊆ bits_at srv (bloomKey day)).

(** Redis answers the dedup check of an [accumulate] call: [BF.ADD]
    reaches the server and its reply decodes to an integer or a boolean. *)
Definition answered (env : RedisEnv) : Prop :=
  add_reachable env = true ∧ add_wire env ≠ Unexpected.

(** The count stored for a key of the counter table; zero when there is no
    row. *)
Definition stored (tbl : gmap (string * string * string) Z) (key : AggregateKey) : Z :=
  default 0 (tbl !! primary_key key).

(** The delta pending in memory for a key. *)
Definition pending (a : Aggregator) (key : AggregateKey) : Z :=
  default 0 (counts a !! key).

(** The events of a batch, in delivery order. *)
Definition events_of (batch : list (ListenEvent * Message * RedisEnv)) : list ListenEvent :=
  (λ d, d.1.1) <$> batch.

(** The deduplicated set of the event ids delivered for a key, and its
    size. *)
Definition ids_for (loc : GoTime.Location) (key : AggregateKey)
    (events : list ListenEvent) : gset string :=
  list_to_set (EventID <$> filter (λ e, event_key loc e = key) events).

Definition distinct_ids (loc : GoTime.Location) (key : AggregateKey)
    (events : list ListenEvent) : Z :=
  Z.of_nat (size (ids_for loc key events)).

(** The hash family gives no false positive on these ids: an id whose bits
    are all set by some of the others is one of them. *)
Definition collision_free `{BloomHash} (ids : list string) : Prop :=
  ∀ (x : string) (S : list string),
    x ∈ ids → S ⊆ ids → bloom_positions x ⊆ ⋃ (bloom_positions <$> S) → x ∈ S.

(** After [n] turns of the consumer, a key whose stored count started at
    [base]: the pending delta is not negative, the stored count has not
    gone below [base], and stored and pending together have grown by at
    most one per turn. *)
Definition within_budget (base n : Z) (key : AggregateKey) (st : World * Aggregator) : Prop :=
  0 ≤ pending st.2 key
  ∧ base ≤ stored (cassandra st.1) key
  ∧ stored (cassandra st.1) key + pending st.2 key ≤ base + n.

(** The aggregator [main] starts from. *)
Definition new_Aggregator : Aggregator :=
  {| counts := ∅; lastMsg := {| Partition := 0; Offset := 0; Value := "" |};
     hasMsg := false; dedupCount := 0 |}.

(** Accumulating a batch of events, each with its message and the state of
    Redis at that moment. *)
Definition accumulate_all `{BloomHash} (loc : GoTime.Location)
    (st : World * Aggregator) (batch : list (ListenEvent * Message * RedisEnv))
  : World * Aggregator :=
  foldl (λ st '(event, msg, env), accumulate loc env st event msg) st batch.

(** ** Sample data *)

Module Sample.
(** A hash family with collisions: ids of equal length share their bit. *)
Definition length_hash : BloomHash := λ id, {[ N.of_nat (String.length id) ]}.

(** A hash family without collisions: one bit per id. *)
Definition exact_hash : BloomHash := λ id, {[ Npos (encode id) ]}.

(** A process whose [time.Local] is Asia/Kolkata (UTC+05:30). *)
Definition Kolkata : GoTime.Location := λ _, 19800.

(** What the crawl worker publishes: [json.Marshal] of the event. *)
Definition publish (e : ListenEvent) : string :=
  GoJson.object [GoJson.field "event_id" (GoJson.str (EventID e));
                 GoJson.field "user_id" (GoJson.str (UserID e));
                 GoJson.field "song_id" (GoJson.str (SongID e));
                 GoJson.field "provider" (GoJson.str (Provider e));
                 GoJson.field "listened_at" (GoStrings.itoa (ListenedAt e))].

(** A decoder that reads back the published form of the listed events
    and rejects every other payload. *)
Definition decoder (known : list ListenEvent) : JsonDecoder := λ payload,
  match List.find (λ e, String.eqb (publish e) payload) known with
  | Some e => Ok e
  | None => Err "invalid character"
  end.

(** 2026-01-29T18:30:00Z, which is 2026-01-30T00:00:00+05:30. *)
Definition e1 : ListenEvent :=
  {| EventID := "e1"; UserID := "u1"; SongID := "s1"; Provider := "spotify";
     ListenedAt := 1769711400 |}.

Definition e2 : ListenEvent :=
  {| EventID := "e2"; UserID := "u1"; SongID := "s1"; Provider := "spotify";
     ListenedAt := 1769715000 |}.

Definition e3 : ListenEvent :=
  {| EventID := "e-3"; UserID := "u1"; SongID := "s2"; Provider := "spotify";
     ListenedAt := 1769715000 |}.

Definition message (offset : Z) (payload : string) : Message :=
  {| Partition := 0; Offset := offset; Value := payload |}.

Definition m1 : Message := message 41 (publish e1).
Definition m1_again : Message := message 42 (publish e1).
Definition m2 : Message := message 43 (publish e2).
Definition m_bad : Message := message 44 "not json".

Definition m3 : Message := message 45 (publish e3).

Definition redis_up : RedisEnv :=
  {| reserve_reachable := true; add_reachable := true; add_wire := Resp2 |}.
Definition redis_down : RedisEnv :=
  {| reserve_reachable := false; add_reachable := false; add_wire := Resp2 |}.

Definition writes_ok : FlushEnv := {| write_fails := λ _, false; commit_fails := false |}.
Definition writes_fail : FlushEnv := {| write_fails := λ _, true; commit_fails := false |}.

Definition empty_world : World := {| redis := ∅; cassandra := ∅; committed := ∅ |}.

Definition key_s1 : AggregateKey :=
  {| KeyUserID := "u1"; KeyDay := "2026-01-29"; KeySongID := "s1" |}.

(** Three deliveries, the first event twice. *)
Definition deliveries : list (ListenEvent * Message * RedisEnv) :=
  [(e1, m1, redis_up); (e1, m1_again, redis_up); (e2, m2, redis_up)].
End Sample.

(** ** The API server ([services/api-server/main.go]) *)

Module Api.
Record TopKResult := {
  SongID : string;
  ListenCount : Z;
  Rank : Z
}.

Record TopKResponse := {
  UserID : string;
  Days : Z;
  K : Z;
  Results : list TopKResult;
  Cached : bool
}.

(** [json.Marshal] of a [TopKResponse]. *)
Class JsonEncoder := json_Marshal : TopKResponse → result string.

(** The unexported [songCount] of [computeTopK]. *)
Record songCount := { songID : string; count : Z }.

(** [sort.Slice]: some rearrangement of the slice that is ordered by
    [less]; the order of elements neither of which is less than the
    other is not specified. *)
Class Sorter := sort_Slice : (songCount → songCount → bool) → list songCount → list songCount.

(** The [less] closure handed to [sort.Slice]:
    [sorted[i].count > sorted[j].count]. *)
Definition by_count_desc (x y : songCount) : bool := bool_decide (count x > count y).

(** No later element is less than an earlier one. *)
Definition ordered_by (less : songCount → songCount → bool) : list songCount → Prop :=
  StronglySorted (λ x y, less y x = false).

Class SorterOk (S : Sorter) : Prop := {
  sort_Slice_perm less l : sort_Slice less l ≡ₚ l;
  sort_Slice_ordered l : ordered_by by_count_desc (sort_Slice by_count_desc l)
}.

(** The insertion sort [sort.Slice] runs on slices of at most 12
    elements: element [i] moves left while it is less than its left
    neighbour. The prefix is kept reversed. *)
Fixpoint sift {A} (less : A → A → bool) (x : A) (rev_prefix : list A) : list A :=
  match rev_prefix with
  | [] => [x]
  | y :: r => if less x y then y :: sift less x r else x :: y :: r
  end.

Definition insertionSort {A} (less : A → A → bool) (l : list A) : list A :=
  rev (foldl (λ acc x, sift less x acc) [] l).

(** An HTTP request as [topKHandler] reads it; [Query] is
    [r.URL.Query()], in the order of the raw query. *)
Record Request := {
  Method : string;
  Path : string;
  Query : list (string * string)
}.

Record Response := {
  Status : Z;
  Header : list (string * string);
  Body : string
}.

(** The Redis cache: a value and, when it has one, the instant (Unix
    seconds) at which it expires. *)
Record Backend := {
  cache : gmap string (string * option Z);
  table : gmap (string * string * string) Z
}.

(** How one request finds the world: the clock, whether Redis answers,
    the days whose Cassandra query fails, and the order in which [range]
    yields the entries of [songCounts]. *)
Record Env := {
  now : Z;
  cache_reachable : bool;
  query_fails : string → bool;
  range_order : list (string * Z) → list (string * Z)
}.

(** [range] over a Go map yields every entry once, in no specified
    order. *)
Definition range_ok (env : Env) : Prop := ∀ l, range_order env l ≡ₚ l.

Definition StatusOK : Z := 200.
Definition StatusBadRequest : Z := 400.
Definition StatusMethodNotAllowed : Z := 405.
Definition StatusInternalServerError : Z := 500.

Definition newline : string := String "010"%char EmptyString.

(** [http.Error]. *)
Definition http_Error (msg : string) (code : Z) : Response :=
  {| Status := code;
     Header := [("Content-Type", "text/plain; charset=utf-8");
                ("X-Content-Type-Options", "nosniff")]%string;
     Body := msg +:+ newline |}.

(** [url.Values.Get]. *)
Fixpoint Values_Get (q : list (string * string)) (key : string) : string :=
  match q with
  | [] => ""
  | (k, v) :: q' => if String.eqb k key then v else Values_Get q' key
  end.

Definition getQueryInt (r : Request) (key : string) (defaultVal : Z) : Z :=
  let val := Values_Get (Query r) key in
  if String.eqb val "" then defaultVal
  else match GoStrings.Atoi val with
       | Err _ => defaultVal
       | Ok i => i
       end.

(** [redisClient.Get(ctx, key).Result()]: an error when the key is
    missing or expired ([redis.Nil]) or Redis does not answer. *)
Definition redis_Get (env : Env) (c : gmap string (string * option Z)) (key : string)
  : result string :=
  if cache_reachable env then
    match c !! key with
    | Some (v, None) => Ok v
    | Some (v, Some expiry) => if now env <? expiry then Ok v else Err "redis: nil"
    | None => Err "redis: nil"
    end
  else Err "dial tcp: connection refused".

(** [redisClient.Set(ctx, key, value, ttl)], its error dropped; a zero
    [ttl] stores the key without expiry. [ttl] is in seconds. *)
Definition redis_Set (env : Env) (c : gmap string (string * option Z))
    (key value : string) (ttl : Z) : gmap string (string * option Z) :=
  if cache_reachable env then
    <[key := (value, if 0 <? ttl then Some (now env + ttl) else None)]> c
  else c.

(** [SELECT song_id, listen_count FROM user_daily_topk WHERE user_id = ?
    AND day = ?]: the rows of one partition. *)
Definition select_day (tbl : gmap (string * string * string) Z) (userID day : string)
  : list (string * Z) :=
  omap (λ row : string * string * string * Z,
          let '(u, d, s, c) := row in
          if bool_decide (u = userID ∧ d = day) then Some (s, c) else None)
       (map_to_list tbl).

(** [for iter.Scan(&songID, &count) { songCounts[songID] += count }]. *)
Definition scan_rows (rows : list (string * Z)) (songCounts : gmap string Z)
  : gmap string Z :=
  foldl (λ m '(s, c), <[s := Int64.add (default 0 (m !! s)) c]> m) songCounts rows.

Fixpoint scan_days (env : Env) (tbl : gmap (string * string * string) Z)
    (userID : string) (dayList : list string) (songCounts : gmap string Z)
  : result (gmap string Z) :=
  match dayList with
  | [] => Ok songCounts
  | day :: rest =>
      let songCounts' := scan_rows (select_day tbl userID day) songCounts in
      if query_fails env day then Err ("query error for day " +:+ day)
      else scan_days env tbl userID rest songCounts'
  end.

(** The days queried: today (UTC) and the [days - 1] days before it. *)
Definition dayList (env : Env) (days : Z) : list string :=
  let today := GoTime.today_utc (now env) in
  (λ i : nat, GoTime.day_before today (Z.of_nat i)) <$> seq 0 (Z.to_nat days).

Definition computeTopK `{Sorter} (env : Env) (tbl : gmap (string * string * string) Z)
    (userID : string) (days k : Z) : result (list TopKResult) :=
  match scan_days env tbl userID (dayList env days) ∅ with
  | Err msg => Err msg
  | Ok songCounts =>
      let sorted :=
        sort_Slice by_count_desc
          ((λ '(s, c), {| songID := s; count := c |})
             <$> range_order env (map_to_list songCounts)) in
      let sorted :=
        if k <? Z.of_nat (length sorted) then take (Z.to_nat k) sorted else sorted in
      Ok (imap (λ i sc, {| SongID := songID sc; ListenCount := count sc;
                           Rank := Z.of_nat i + 1 |}) sorted)
  end.

(** [fmt.Sprintf("topk:%s:%d:%d", userID, days, k)]. *)
Definition cacheKey (userID : string) (days k : Z) : string :=
  "topk:" +:+ userID +:+ ":" +:+ GoStrings.itoa days +:+ ":" +:+ GoStrings.itoa k.

Definition json_headers (x_cache : string) : list (string * string) :=
  [("Content-Type", "application/json"); ("X-Cache", x_cache)]%string.

(** [topKHandler]; [cacheTTL] is the configured TTL, in seconds. *)
Definition topKHandler `{Sorter} `{JsonEncoder} (cacheTTL : Z) (env : Env)
    (b : Backend) (r : Request) : Backend * Response :=
  if negb (String.eqb (Method r) "GET") then
    (b, http_Error "method not allowed" StatusMethodNotAllowed)
  else
    let path := GoStrings.TrimPrefix (Path r) "/users/" in
    match GoStrings.Split path "/" with
    | [userID; tail] =>
        if negb (String.eqb tail "topk") then
          (b, http_Error "invalid path, expected /users/{user_id}/topk" StatusBadRequest)
        else
          let days := getQueryInt r "days" 7 in
          let k := getQueryInt r "k" 10 in
          if (days <? 1) || (30 <? days) then
            (b, http_Error "days must be 1-30" StatusBadRequest)
          else if (k <? 1) || (100 <? k) then
            (b, http_Error "k must be 1-100" StatusBadRequest)
          else
            let key := cacheKey userID days k in
            match redis_Get env (cache b) key with
            | Ok cached =>
                (b, {| Status := StatusOK; Header := json_headers "HIT"; Body := cached |})
            | Err _ =>
                match computeTopK env (table b) userID days k with
                | Err _ => (b, http_Error "internal error" StatusInternalServerError)
                | Ok results =>
                    let response :=
                      {| UserID := userID; Days := days; K := k;
                         Results := results; Cached := false |} in
                    match json_Marshal response with
                    | Err _ => (b, http_Error "internal error" StatusInternalServerError)
                    | Ok jsonData =>
                        ({| cache := redis_Set env (cache b) key jsonData cacheTTL;
                            table := table b |},
                         {| Status := StatusOK; Header := json_headers "MISS";
                            Body := jsonData |})
                    end
                end
            end
    | _ => (b, http_Error "invalid path, expected /users/{user_id}/topk" StatusBadRequest)
    end.
(** [json.Marshal] as Go runs it on a [TopKResponse]. *)
Definition marshal_result (r : TopKResult) : string :=
  GoJson.object [GoJson.field "song_id" (GoJson.str (SongID r));
                 GoJson.field "listen_count" (GoStrings.itoa (ListenCount r));
                 GoJson.field "rank" (GoStrings.itoa (Rank r))].

Definition marshal_response (r : TopKResponse) : string :=
  GoJson.object [GoJson.field "user_id" (GoJson.str (UserID r));
                 GoJson.field "days" (GoStrings.itoa (Days r));
                 GoJson.field "k" (GoStrings.itoa (K r));
                 GoJson.field "results" (GoJson.array (map marshal_result (Results r)));
                 GoJson.field "cached" (GoJson.bool (Cached r))].

Definition go_json : JsonEncoder := λ r, Ok (marshal_response r).

Definition insertion_sorter : Sorter := @insertionSort songCount.

(** *** Vocabulary of the properties *)

(** The count stored for a user's song on a day; zero without a row. *)
Definition day_count (tbl : gmap (string * string * string) Z) (userID song day : string) : Z :=
  default 0 (tbl !! (userID, day, song)).

(** The sum of a song's per-day counts over a list of days. *)
Definition window_total (tbl : gmap (string * string * string) Z) (userID : string)
    (days : list string) (song : string) : Z :=
  foldr (λ day acc, day_count tbl userID song day + acc) 0 days.

(** The song has a row on at least one of the days. *)
Definition recorded (tbl : gmap (string * string * string) Z) (userID : string)
    (days : list string) (song : string) : Prop :=
  Exists (λ day, is_Some (tbl !! (userID, day, song))) days.

(** The map [songCounts] once the rows of the days have been scanned. *)
Definition merged (tbl : gmap (string * string * string) Z) (userID : string)
    (days : list string) : gmap string Z :=
  foldl (λ m day, scan_rows (select_day tbl userID day) m) ∅ days.

(** The entry of the response for the song at position [i]. *)
Definition ranked (i : nat) (sc : songCount) : TopKResult :=
  {| SongID := songID sc; ListenCount := count sc; Rank := Z.of_nat i + 1 |}.


(** *** Sample data: scenario A of the specification on 2026-01-30, and
    a table in which two songs tie. *)
Module Sample.
Definition tableA : gmap (string * string * string) Z :=
  list_to_map [(("u1", "2026-01-30", "a"), 5); (("u1", "2026-01-30", "b"), 3);
               (("u1", "2026-01-29", "a"), 2)]%string.

Definition table_tie : gmap (string * string * string) Z :=
  list_to_map [(("u1", "2026-01-30", "a"), 4); (("u1", "2026-01-30", "b"), 4)]%string.

(** 2026-01-30T00:01:40Z, Redis up, Cassandra answering; [range] yields
    the map entries in the order [order] puts them. *)
Definition env (order : list (string * Z) → list (string * Z)) : Env :=
  {| now := 1769731300; cache_reachable := true; query_fails := λ _, false;
     range_order := order |}.

Definition forwards : list (string * Z) → list (string * Z) := λ l, l.
Definition backwards : list (string * Z) → list (string * Z) := @rev _.

Definition later (seconds : Z) (e : Env) : Env :=
  {| now := now e + seconds; cache_reachable := cache_reachable e;
     query_fails := query_fails e; range_order := range_order e |}.

Definition get (path : string) (query : list (string * string)) : Request :=
  {| Method := "GET"; Path := path; Query := query |}.

Definition cold (tbl : gmap (string * string * string) Z) : Backend :=
  {| cache := ∅; table := tbl |}.
End Sample.
End Api.

(** ** More vocabulary *)

(** [strings.Count s sep] for a one-byte separator. *)
Fixpoint count_byte (c : ascii) (s : string) : nat :=
  match s with
  | EmptyString => 0%nat
  | String a s' => ((if Ascii.eqb a c then 1 else 0) + count_byte c s')%nat
  end.

(** All the deltas pending in memory, summed over the keys. *)
Definition total_pending (a : Aggregator) : Z :=
  map_fold (λ _ delta acc, delta + acc) 0 (counts a).

(** The TTL of the filter stored at a Redis key: [None] when there is no
    filter, [Some None] for a filter that never expires. *)
Definition ttl_at (srv : gmap string RedisBloom.Filter) (key : string) : option (option Z) :=
  RedisBloom.ttl <$> srv !! key.

(** ** The aggregator before deduplication (the first [main.go] of
       [services/aggregator]) *)

Module AggregatorV1.
Record Aggregator := {
  counts : gmap AggregateKey Z;
  lastMsg : Message;
  hasMsg : bool
}.

Definition new_Aggregator : Aggregator :=
  {| counts := ∅; lastMsg := {| Partition := 0; Offset := 0; Value := "" |};
     hasMsg := false |}.

Definition accumulate (loc : GoTime.Location) (a : Aggregator)
    (event : ListenEvent) (msg : Message) : Aggregator :=
  {| counts := incr (event_key loc event) (counts a); lastMsg := msg; hasMsg := true |}.

(** The counter table and the committed offsets, then the aggregator. *)
Definition flush (env : FlushEnv)
    (st : gmap (string * string * string) Z * gmap Z Z * Aggregator)
  : gmap (string * string * string) Z * gmap Z Z * Aggregator :=
  let '(tbl, k, a) := st in
  if bool_decide (size (counts a) = 0%nat) then st
  else
    (map_fold (flush_write env) tbl (counts a),
     if hasMsg a then CommitMessages (commit_fails env) k (lastMsg a) else k,
     {| counts := ∅; lastMsg := lastMsg a; hasMsg := false |}).

Definition accumulate_all (loc : GoTime.Location) (a : Aggregator)
    (batch : list (ListenEvent * Message)) : Aggregator :=
  foldl (λ a '(event, msg), accumulate loc a event msg) a batch.
End AggregatorV1.

(** ** The crawl worker ([services/crawl-worker/tasks/crawl.go]) *)

Module CrawlWorker.
Definition TypeCrawlUser : string := "crawl:user".

Record CrawlUserPayload := {
  TaskUserID : string;
  TaskProvider : string;
  Since : Z
}.

(** An [asynq.Task]. *)
Record Task := {
  Type_ : string;
  Payload : string
}.

(** A task in the Redis queue, with the options it was enqueued with. *)
Record Scheduled := {
  task : Task;
  ProcessAt : option Z;
  Queue : string
}.

(** A [kafka.Message] as the producer fills it. *)
Record Outgoing := {
  Key : string;
  Data : string
}.

(** [json.Unmarshal(t.Payload(), &p)]. *)
Class PayloadDecoder := payload_Unmarshal : string → result CrawlUserPayload.

(** [json.Marshal] of a [CrawlUserPayload] and of a [ListenEvent]. *)
Definition marshal_payload (p : CrawlUserPayload) : string :=
  GoJson.object [GoJson.field "user_id" (GoJson.str (TaskUserID p));
                 GoJson.field "provider" (GoJson.str (TaskProvider p));
                 GoJson.field "since" (GoStrings.itoa (Since p))].

Definition marshal_event (e : ListenEvent) : string :=
  GoJson.object [GoJson.field "event_id" (GoJson.str (EventID e));
                 GoJson.field "user_id" (GoJson.str (UserID e));
                 GoJson.field "song_id" (GoJson.str (SongID e));
                 GoJson.field "provider" (GoJson.str (Provider e));
                 GoJson.field "listened_at" (GoStrings.itoa (ListenedAt e))].

(** [since] is a [time.Time] read as Unix seconds. *)
Definition NewCrawlUserTask (userID provider : string) (since : Z) : Task :=
  {| Type_ := TypeCrawlUser;
     Payload := marshal_payload
                  {| TaskUserID := userID; TaskProvider := provider; Since := since |} |}.

(** The simulated provider; [now] is [time.Now().Unix()]. *)
Definition fetchListenHistory (now : Z) (userID provider : string) (since : Z)
  : list ListenEvent :=
  (λ i : Z,
     {| EventID := userID +:+ "-" +:+ provider +:+ "-" +:+ GoStrings.itoa now
                   +:+ "-" +:+ GoStrings.itoa i;
        UserID := userID;
        SongID := "song-" +:+ GoStrings.itoa (Z.rem i 100);
        Provider := provider;
        ListenedAt := Int64.add since (i * 3600) |}) <$> seqZ 0 10.

(** How one run of the handler finds the world: the three readings of the
    clock (in [fetchListenHistory], and twice in [reschedule]), whether
    [WriteMessages] fails and how many messages reached the topic before
    it did, and whether [Enqueue] fails. *)
Record Env := {
  now_fetch : Z;
  now_since : Z;
  now_enqueue : Z;
  kafka_fails : option nat;
  enqueue_fails : bool
}.

(** The topic [user.listen.raw] and the queue [crawl]. *)
Record Backends := {
  topic : list Outgoing;
  jobs : list Scheduled
}.

Definition publishEvents (env : Env) (log : list Outgoing) (events : list ListenEvent)
  : list Outgoing * result unit :=
  let msgs := (λ e, {| Key := UserID e; Data := marshal_event e |}) <$> events in
  match kafka_fails env with
  | Some written => (log ++ take written msgs, Err "kafka: write failed")
  | None => (log ++ msgs, Ok ())
  end.

Definition reschedule (env : Env) (q : list Scheduled) (userID provider : string)
  : list Scheduled * result unit :=
  let task := NewCrawlUserTask userID provider (now_since env) in
  let tomorrow := now_enqueue env + 24 * 3600 in
  if enqueue_fails env then (q, Err "asynq: enqueue failed")
  else (q ++ [{| task := task; ProcessAt := Some tomorrow; Queue := "crawl" |}], Ok ()).

Definition HandleCrawlUserTask `{PayloadDecoder} (env : Env) (b : Backends) (t : Task)
  : Backends * result unit :=
  match payload_Unmarshal (Payload t) with
  | Err msg => (b, Err ("unmarshal payload: " +:+ msg))
  | Ok p =>
      let events := fetchListenHistory (now_fetch env) (TaskUserID p) (TaskProvider p) (Since p) in
      match publishEvents env (topic b) events with
      | (log, Err msg) => ({| topic := log; jobs := jobs b |}, Err ("publish events: " +:+ msg))
      | (log, Ok _) =>
          let '(q, _) := reschedule env (jobs b) (TaskUserID p) (TaskProvider p) in
          ({| topic := log; jobs := q |}, Ok ())
      end
  end.

(** A decoder that reads back the marshalled form of the listed payloads
    and rejects every other text. *)
Definition table_decoder (known : list CrawlUserPayload) : PayloadDecoder := λ text,
  match List.find (λ p, String.eqb (marshal_payload p) text) known with
  | Some p => Ok p
  | None => Err "invalid character"
  end.

(** *** Sample data: the crawl of user u1 enqueued on 2026-01-29, run on
    2026-01-30 at 00:01:40Z. *)
Module Sample.
Definition first_payload : CrawlUserPayload :=
  {| TaskUserID := "u1"; TaskProvider := "spotify"; Since := 1769644800 |}.

Definition next_payload : CrawlUserPayload :=
  {| TaskUserID := "u1"; TaskProvider := "spotify"; Since := 1769731300 |}.

Definition env : Env :=
  {| now_fetch := 1769731300; now_since := 1769731300; now_enqueue := 1769731300;
     kafka_fails := None; enqueue_fails := false |}.

Definition decoder : PayloadDecoder := table_decoder [first_payload; next_payload].

Definition idle : Backends := {| topic := []; jobs := [] |}.
End Sample.
End CrawlWorker.

(** ** The raw event processor ([services/raw-event-processor/main.go]) *)

Module RawEventProcessor.
(** The table [user_listen_history], keyed by its partition key
    [(user_id, day)] and clustering key [(listened_at, event_id)], with
    the columns [song_id] and [provider]; and the consumer group's
    committed offset per partition. *)
Record Store := {
  history : gmap (string * string * Z * string) (string * string);
  offsets : gmap Z Z
}.

Record Env := {
  insert_fails : bool;
  commit_fails : bool
}.

Definition row_key (loc : GoTime.Location) (event : ListenEvent)
  : string * string * Z * string :=
  (UserID event, GoTime.Unix_Format loc (ListenedAt event), ListenedAt event, EventID event).

(** [INSERT INTO user_listen_history (...) VALUES (...)]: an upsert on
    the primary key. *)
Definition writeEvent (loc : GoTime.Location) (fails : bool)
    (tbl : gmap (string * string * Z * string) (string * string)) (event : ListenEvent)
  : gmap (string * string * Z * string) (string * string) * result unit :=
  if fails then (tbl, Err "gocql: no hosts available")
  else (<[row_key loc event := (SongID event, Provider event)]> tbl, Ok ()).

(** The body of the message loop of [main] for one fetched message. *)
Definition handle `{JsonDecoder} (loc : GoTime.Location) (env : Env) (st : Store)
    (msg : Message) : Store :=
  match json_Unmarshal (Value msg) with
  | Err _ =>
      {| history := history st;
         offsets := CommitMessages (commit_fails env) (offsets st) msg |}
  | Ok event =>
      match writeEvent loc (insert_fails env) (history st) event with
      | (_, Err _) => st
      | (tbl, Ok _) =>
          {| history := tbl;
             offsets := CommitMessages (commit_fails env) (offsets st) msg |}
      end
  end.

Definition handle_all `{JsonDecoder} (loc : GoTime.Location) (st : Store)
    (fetched : list (Message * Env)) : Store :=
  foldl (λ st '(msg, env), handle loc env st msg) st fetched.

(** *** Sample data *)
Module Sample.
Definition up : Env := {| insert_fails := false; commit_fails := false |}.
Definition down : Env := {| insert_fails := true; commit_fails := false |}.
Definition empty_store : Store := {| history := ∅; offsets := ∅ |}.
End Sample.
End RawEventProcessor.

(** * Properties *)

(** ** 64-bit arithmetic *)

Section int64_facts.
Import Int64.

Lemma wrap_in_range z : in_range z → wrap z = z.
Proof.
  unfold in_range, min_int, max_int, wrap. intros Hz.
  rewrite Z.mod_small; lia.
Qed.

Lemma wrap_range z : in_range (wrap z).
Proof.
  unfold in_range, min_int, max_int, wrap.
  pose proof (Z.mod_pos_bound (z + 2 ^ 63) (2 ^ 64)). lia.
Qed.

Lemma wrap_add_l a b : wrap (wrap a + b) = wrap (a + b).
Proof.
  unfold wrap. f_equal.
  replace ((a + 2 ^ 63) mod 2 ^ 64 - 2 ^ 63 + b + 2 ^ 63)
    with ((a + 2 ^ 63) mod 2 ^ 64 + b) by lia.
  rewrite Zplus_mod_idemp_l. f_equal. lia.
Qed.

Lemma add_in_range a b : in_range (a + b) → add a b = a + b.
Proof. apply wrap_in_range. Qed.
End int64_facts.

(** Closes range goals once the bounds of [int64] are spelled out. *)
Ltac int64_lia :=
  unfold Int64.in_range, Int64.min_int, Int64.max_int in *; lia.

(** ** Dates *)

Example format_epoch : GoTime.utc_day 0 = "1970-01-01"%string.
Proof. reflexivity. Qed.

Example format_leap_day : GoTime.utc_day 1709164800 = "2024-02-29"%string.
Proof. vm_compute. reflexivity. Qed.

Example format_before_epoch : GoTime.utc_day (-1) = "1969-12-31"%string.
Proof. vm_compute. reflexivity. Qed.

Lemma Unix_Format_UTC sec : GoTime.Unix_Format GoTime.UTC sec = GoTime.utc_day sec.
Proof. reflexivity. Qed.

(** ** The flush loop *)

Lemma primary_key_inj : Inj (=) (=) primary_key.
Proof. intros [] [] [=]. by simplify_eq/=. Qed.

Section flush_facts.
Context (env : FlushEnv).

(** The table after the write loop, key by key: the iteration order of
    the drained map does not matter. *)
Lemma write_loop_lookup (tbl : gmap (string * string * string) Z)
    (cnts : gmap AggregateKey Z) (key : AggregateKey) :
  map_fold (flush_write env) tbl cnts !! primary_key key =
    match cnts !! key with
    | Some delta =>
        if write_fails env key then tbl !! primary_key key
        else Some (Int64.add (default 0 (tbl !! primary_key key)) delta)
    | None => tbl !! primary_key key
    end.
Proof.
  revert key.
  apply (map_fold_weak_ind
           (λ r (m : gmap AggregateKey Z), ∀ key,
              r !! primary_key key =
                match m !! key with
                | Some delta =>
                    if write_fails env key then tbl !! primary_key key
                    else Some (Int64.add (default 0 (tbl !! primary_key key)) delta)
                | None => tbl !! primary_key key
                end)).
  - intros key. by rewrite lookup_empty.
  - intros i x m r Hi IH key. unfold flush_write, update_counter.
    destruct (decide (i = key)) as [->|Hne].
    + rewrite lookup_insert_eq. specialize (IH key). rewrite Hi in IH.
      destruct (write_fails env key); [done|].
      by rewrite lookup_insert_eq, IH.
    + rewrite lookup_insert_ne by done.
      destruct (write_fails env i); [by apply IH|].
      rewrite lookup_insert_ne; [by apply IH|].
      intros Heq. by apply primary_key_inj in Heq.
Qed.
End flush_facts.

(** ** The dedup check *)

Section bloom_facts.
Context `{BloomHash}.

Lemma ensureBloomFilter_bits env srv day k :
  bits_at (ensureBloomFilter env srv day).1 k = bits_at srv k.
Proof.
  unfold ensureBloomFilter, do_RESERVE, RedisBloom.RESERVE.
  destruct (reserve_reachable env); [|done].
  destruct (srv !! bloomKey day) as [f|] eqn:Hf; simpl; [done|].
  unfold bits_at, RedisBloom.EXPIRE. rewrite lookup_alter.
  case_decide as Hk.
  - subst k. by rewrite lookup_insert_eq, Hf.
  - by rewrite lookup_insert_ne.
Qed.

Lemma ADD_bits srv key item k :
  bits_at (RedisBloom.ADD srv key item).1 k =
    if decide (key = k) then bits_at srv k ∪ bloom_positions item else bits_at srv k.
Proof.
  unfold RedisBloom.ADD, bits_at; simpl. case_decide as Hk.
  - subst k. by rewrite lookup_insert_eq.
  - by rewrite lookup_insert_ne.
Qed.

(** With Redis answering, the check returns the filter's verdict and
    leaves the id in the day's filter. *)
Lemma checkAndAddToBloom_answered env srv day eventID :
  answered env →
  ∃ srv', checkAndAddToBloom env srv day eventID = (srv', Ok (seen srv day eventID))
    ∧ ∀ k, bits_at srv' k =
             if decide (bloomKey day = k) then bits_at srv k ∪ bloom_positions eventID
             else bits_at srv k.
Proof.
  intros [Hreach Hwire]. unfold checkAndAddToBloom, do_ADD.
  pose proof (ensureBloomFilter_bits env srv day) as Hens.
  destruct (ensureBloomFilter env srv day) as [srv1 r1]; simpl in Hens.
  rewrite Hreach.
  pose proof (ADD_bits srv1 (bloomKey day) eventID) as Hadd.
  assert (Hv : (RedisBloom.ADD srv1 (bloomKey day) eventID).2 = negb (seen srv day eventID)).
  { unfold RedisBloom.ADD, RedisBloom.mem, seen; simpl.
    by rewrite <- (Hens (bloomKey day)). }
  destruct (RedisBloom.ADD srv1 (bloomKey day) eventID) as [srv2 added];
    simpl in Hadd, Hv. subst added.
  exists srv2. split.
  - destruct (add_wire env); [| |done]; by destruct (seen srv day eventID).
  - intros k. rewrite Hadd. by rewrite !Hens.
Qed.

(** Whatever Redis does, the check never clears a bit. *)
Lemma checkAndAddToBloom_bits_mono env srv day eventID k :
  bits_at srv k ⊆ bits_at (checkAndAddToBloom env srv day eventID).1 k.
Proof.
  unfold checkAndAddToBloom, do_ADD.
  pose proof (ensureBloomFilter_bits env srv day) as Hens.
  destruct (ensureBloomFilter env srv day) as [srv1 r1]; simpl in Hens.
  destruct (add_reachable env).
  - pose proof (ADD_bits srv1 (bloomKey day) eventID k) as Hadd.
    destruct (RedisBloom.ADD srv1 (bloomKey day) eventID) as [srv2 added];
      simpl in Hadd.
    assert (bits_at srv k ⊆ bits_at srv2 k).
    { rewrite Hadd, Hens. case_decide; set_solver. }
    by destruct (add_wire env), added.
  - simpl. by rewrite Hens.
Qed.
End bloom_facts.

(** ** [accumulate], [flush] and the message loop *)

Section aggregator_facts.
Context `{BloomHash}.

Lemma accumulate_backends loc env st event msg :
  cassandra (accumulate loc env st event msg).1 = cassandra st.1
  ∧ committed (accumulate loc env st event msg).1 = committed st.1.
Proof.
  destruct st as [w a]. unfold accumulate.
  destruct (checkAndAddToBloom _ _ _ _) as [srv [[]|]]; done.
Qed.

Lemma accumulate_redis loc env st event msg :
  redis (accumulate loc env st event msg).1 =
    (checkAndAddToBloom env (redis st.1) (event_day loc event) (EventID event)).1.
Proof.
  destruct st as [w a]. unfold accumulate.
  destruct (checkAndAddToBloom _ _ _ _) as [srv [[]|]]; done.
Qed.

(** An event is either skipped or counted once under its own key. *)
Lemma accumulate_counts loc env st event msg :
  counts (accumulate loc env st event msg).2 = counts st.2
  ∨ counts (accumulate loc env st event msg).2 = incr (event_key loc event) (counts st.2).
Proof.
  destruct st as [w a]. unfold accumulate.
  destruct (checkAndAddToBloom _ _ _ _) as [srv [[]|]]; auto.
Qed.

Lemma accumulate_answered_counts loc env st event msg :
  answered env →
  counts (accumulate loc env st event msg).2 =
    if seen (redis st.1) (event_day loc event) (EventID event) then counts st.2
    else incr (event_key loc event) (counts st.2).
Proof.
  intros Hans. destruct st as [w a]. unfold accumulate.
  destruct (checkAndAddToBloom_answered env (redis w) (event_day loc event)
              (EventID event) Hans) as (srv' & -> & _).
  by destruct (seen _ _ _).
Qed.

Lemma accumulate_hasMsg loc env st event msg :
  hasMsg (accumulate loc env st event msg).2 = true
  ∧ lastMsg (accumulate loc env st event msg).2 = msg.
Proof.
  destruct st as [w a]. unfold accumulate.
  destruct (checkAndAddToBloom _ _ _ _) as [srv [[]|]]; done.
Qed.

(** Bits only accumulate, so an id the filter reports stays reported. *)
Lemma accumulate_seen_mono loc env st event msg day eventID :
  seen (redis st.1) day eventID = true →
  seen (redis (accumulate loc env st event msg).1) day eventID = true.
Proof.
  rewrite accumulate_redis. unfold seen. rewrite !bool_decide_eq_true.
  intros Hsub.
  pose proof (checkAndAddToBloom_bits_mono env (redis st.1) (event_day loc event)
                (EventID event) (bloomKey day)).
  set_solver.
Qed.

(** No false negatives: once Redis has answered the check of an event,
    the day's filter reports its id. *)
Lemma accumulate_answered_seen loc env st event msg :
  answered env →
  seen (redis (accumulate loc env st event msg).1) (event_day loc event) (EventID event) = true.
Proof.
  intros Hans. rewrite accumulate_redis. unfold seen. rewrite bool_decide_eq_true.
  destruct (checkAndAddToBloom_answered env (redis st.1) (event_day loc event)
              (EventID event) Hans) as (srv' & -> & Hbits); simpl.
  rewrite Hbits. rewrite decide_True by done. set_solver.
Qed.

Lemma incr_lookup key key' (m : gmap AggregateKey Z) :
  default 0 (incr key m !! key') =
    if decide (key = key') then Int64.add (default 0 (m !! key')) 1
    else default 0 (m !! key').
Proof.
  unfold incr. case_decide as Hk.
  - subst. by rewrite lookup_insert_eq.
  - by rewrite lookup_insert_ne.
Qed.

(** What a flush that does not return early leaves behind. *)
Lemma flush_spec env w a :
  ¬ (size (counts a) = 0%nat ∧ hasMsg a = false) →
  flush env (w, a) =
    ({| redis := redis w;
        cassandra := map_fold (flush_write env) (cassandra w) (counts a);
        committed := if hasMsg a
                     then CommitMessages (commit_fails env) (committed w) (lastMsg a)
                     else committed w |},
     {| counts := ∅; lastMsg := lastMsg a; hasMsg := false; dedupCount := 0 |}).
Proof.
  intros Hne. unfold flush.
  destruct (bool_decide (size (counts a) = 0%nat)) eqn:Hsz; [|done].
  destruct (hasMsg a) eqn:Hm; [done|].
  apply bool_decide_eq_true in Hsz. by destruct Hne.
Qed.

(** The stored count of a key after any flush. *)
Lemma flush_stored env w a key :
  stored (cassandra (flush env (w, a)).1) key =
    match counts a !! key with
    | Some delta =>
        if write_fails env key then stored (cassandra w) key
        else Int64.add (stored (cassandra w) key) delta
    | None => stored (cassandra w) key
    end.
Proof.
  unfold flush, stored.
  destruct (bool_decide (size (counts a) = 0%nat) && negb (hasMsg a)) eqn:Hret; simpl.
  - apply andb_true_iff in Hret as [Hsz _].
    apply bool_decide_eq_true, map_size_empty_iff in Hsz.
    by rewrite Hsz, lookup_empty.
  - rewrite write_loop_lookup.
    destruct (counts a !! key); [|done]. by destruct (write_fails env key).
Qed.

Lemma flush_counts env st : counts (flush env st).2 = ∅.
Proof.
  destruct st as [w a]. unfold flush.
  destruct (bool_decide (size (counts a) = 0%nat) && negb (hasMsg a)) eqn:Hret; [|done].
  apply andb_true_iff in Hret as [Hsz _].
  by apply bool_decide_eq_true, map_size_empty_iff in Hsz.
Qed.
End aggregator_facts.

(** ** Partial flush failures (claim C2) *)

Section partial_flush.
Import Sample.
Local Existing Instance length_hash.

(** C2, refuted as stated: one counted event is pending under its key
    when the flush runs and the counter write fails. After the flush
    nothing is stored for the key, the accumulator no longer holds the
    delta (it was not merged back for a retry), and the offset of the
    event's message (41) is committed all the same. *)
Lemma flush_drops_failed_delta_and_commits :
  let st := accumulate_all GoTime.UTC (empty_world, new_Aggregator) [(e1, m1, redis_up)] in
  let st' := flush writes_fail st in
  pending st.2 key_s1 = 1
  ∧ write_fails writes_fail key_s1 = true
  ∧ stored (cassandra st'.1) key_s1 = 0
  ∧ counts st'.2 !! key_s1 = None
  ∧ committed st'.1 !! Partition m1 = Some (Offset m1 + 1).
Proof. vm_compute. repeat split; reflexivity. Qed.

(** C2, as amended: in every flush cycle a failed counter write is
    isolated to its key. The drained delta of a key whose write succeeds
    is added to the stored count, the stored count of a key whose write
    fails is left as it was, and the accumulator is empty afterwards:
    failed deltas are dropped, not merged back for a retry. *)
Theorem flush_failure_isolated_per_key (env : FlushEnv) (w : World) (a : Aggregator)
    (key : AggregateKey) (delta : Z) :
  counts a !! key = Some delta →
  let st' := flush env (w, a) in
  stored (cassandra st'.1) key =
    (if write_fails env key then stored (cassandra w) key
     else Int64.add (stored (cassandra w) key) delta)
  ∧ counts st'.2 = ∅.
Proof.
  intros Hk st'. subst st'. split.
  - rewrite flush_stored, Hk. done.
  - apply flush_counts.
Qed.

Lemma flush_failure_isolated_per_key_witness :
  let a := (accumulate_all GoTime.UTC (empty_world, new_Aggregator)
              [(e1, m1, redis_up); (e3, m3, redis_up)]).2 in
  let env := {| write_fails := λ key, bool_decide (key = key_s1); commit_fails := false |} in
  counts a !! key_s1 = Some 1
  ∧ stored (cassandra (flush env (empty_world, a)).1) key_s1 = 0
  ∧ counts (flush env (empty_world, a)).2 = ∅.
Proof.
  intros a env.
  assert (Hk : counts a !! key_s1 = Some 1) by (vm_compute; reflexivity).
  split; [exact Hk|].
  exact (flush_failure_isolated_per_key env empty_world a key_s1 1 Hk).
Defined.
End partial_flush.

(** ** Day bucketing (claim C8) *)

Section day_bucketing.
Import Sample.
Local Existing Instance length_hash.

(** C8, at the failing input: an event listened at 2026-01-29T18:30:00Z,
    consumed by an aggregator whose local zone is UTC+05:30, is credited
    to the day 2026-01-30, while the UTC day containing its timestamp is
    2026-01-29 (the day the API server would query). *)
Theorem accumulate_credits_local_day :
  map_to_list (counts (accumulate Kolkata redis_up (empty_world, new_Aggregator) e1 m1).2)
    = [({| KeyUserID := "u1"; KeyDay := "2026-01-30"; KeySongID := "s1" |}, 1)]
  ∧ GoTime.utc_day (ListenedAt e1) = "2026-01-29"%string.
Proof. vm_compute. split; reflexivity. Qed.

(** When the process runs in UTC, the bucket is the UTC day of the
    event's own timestamp. *)
Lemma event_key_utc (event : ListenEvent) :
  KeyDay (event_key GoTime.UTC event) = GoTime.utc_day (ListenedAt event).
Proof. reflexivity. Qed.
End day_bucketing.

(** ** Malformed messages (claim C10) *)

Section malformed_messages.
Context `{BloomHash} `{JsonDecoder}.

(** C10: when the payload of a fetched message fails to unmarshal, the
    message loop commits the offset of that message at once and goes on.
    No flush takes place: the counter table is unchanged and the deltas
    accumulated from earlier messages are still only in memory, although
    the committed offset now lies past their messages. *)
Theorem malformed_message_commits_offset (loc : GoTime.Location) (w : World)
    (a : Aggregator) (msg : Message) (env : RedisEnv) (e : string) :
  json_Unmarshal (Value msg) = Err e →
  step loc (w, a) (Fetch msg env false) =
    ({| redis := redis w; cassandra := cassandra w;
        committed := <[Partition msg := Offset msg + 1]> (committed w) |}, a).
Proof. intros Hbad. unfold step. by rewrite Hbad. Qed.
End malformed_messages.

Section malformed_messages_sample.
Import Sample.
Local Existing Instance length_hash.

Lemma malformed_message_commits_offset_witness :
  let D := decoder [e1; e2] in
  let st := step GoTime.UTC (empty_world, new_Aggregator) (Fetch m1 redis_up false) in
  pending st.2 key_s1 = 1
  ∧ Offset m1 < Offset m_bad
  ∧ @json_Unmarshal D (Value m_bad) = Err "invalid character"
  ∧ step GoTime.UTC (st.1, st.2) (Fetch m_bad redis_up false) =
      ({| redis := redis st.1; cassandra := ∅; committed := {[ 0 := 45 ]} |}, st.2).
Proof.
  intros D st.
  assert (Hbad : @json_Unmarshal D (Value m_bad) = Err "invalid character")
    by (vm_compute; reflexivity).
  split; [vm_compute; reflexivity|]. split; [vm_compute; reflexivity|].
  split; [exact Hbad|].
  exact (malformed_message_commits_offset GoTime.UTC st.1 st.2 m_bad redis_up _ Hbad).
Defined.
End malformed_messages_sample.

(** ** Monotonicity of the stored counts (claim C9) *)

Section monotonicity.
Context `{BloomHash} `{JsonDecoder}.
Context (loc : GoTime.Location) (key : AggregateKey) (base : Z).
Context (Hbase : 0 ≤ base).

Lemma accumulate_within_budget n env st event msg :
  0 ≤ n → base + n + 1 ≤ Int64.max_int →
  within_budget base n key st →
  within_budget base (n + 1) key (accumulate loc env st event msg).
Proof.
  intros Hn Hmax (Hp & Hlo & Hhi). unfold within_budget, pending in *.
  destruct (accumulate_backends loc env st event msg) as [-> _].
  destruct (accumulate_counts loc env st event msg) as [-> | ->].
  - lia.
  - rewrite incr_lookup. case_decide; [|lia].
    rewrite add_in_range; [lia|].
    int64_lia.
Qed.

Lemma flush_within_budget n env st :
  0 ≤ n → base + n + 1 ≤ Int64.max_int →
  within_budget base n key st →
  within_budget base (n + 1) key (flush env st)
  ∧ stored (cassandra st.1) key ≤ stored (cassandra (flush env st).1) key.
Proof.
  intros Hn Hmax (Hp & Hlo & Hhi). destruct st as [w a].
  unfold within_budget, pending in *.
  rewrite flush_counts, lookup_empty, flush_stored.
  cbn [fst snd] in *.
  destruct (counts a !! key) as [delta|] eqn:Hk; cbn [from_option id] in *; [|lia].
  destruct (write_fails env key); [lia|].
  rewrite add_in_range; [lia|].
  int64_lia.
Qed.

Lemma step_within_budget n st s :
  0 ≤ n → base + n + 1 ≤ Int64.max_int →
  within_budget base n key st →
  within_budget base (n + 1) key (step loc st s)
  ∧ stored (cassandra st.1) key ≤ stored (cassandra (step loc st s).1) key.
Proof.
  intros Hn Hmax Hst. destruct s as [msg env cf | env]; simpl.
  - destruct (json_Unmarshal (Value msg)) as [event | e].
    + split; [by apply accumulate_within_budget|].
      destruct (accumulate_backends loc env st event msg) as [-> _]. lia.
    + destruct st as [w a]. unfold within_budget in *. simpl in *. lia.
  - by apply flush_within_budget.
Qed.

Lemma run_within_budget steps n st :
  0 ≤ n → base + n + Z.of_nat (length steps) ≤ Int64.max_int →
  within_budget base n key st →
  within_budget base (n + Z.of_nat (length steps)) key (run loc st steps).
Proof.
  revert n st. induction steps as [|s steps IH]; intros n st Hn Hmax Hst.
  - simpl. by rewrite Z.add_0_r.
  - change (run loc st (s :: steps)) with (run loc (step loc st s) steps).
    rewrite length_cons, Nat2Z.inj_succ in *.
    replace (n + Z.succ (Z.of_nat (length steps)))
      with ((n + 1) + Z.of_nat (length steps)) by lia.
    apply IH; [lia|lia|]. apply step_within_budget; [lia|lia|done].
Qed.
End monotonicity.

Section monotonicity_claim.
Context `{BloomHash} `{JsonDecoder}.

(** C9: along any run of the consumer from its start state, no turn
    (a message accumulated, a malformed message, a flush with any
    outcome of its writes) lowers the count stored for a key, and the
    delta pending for the key is never negative. The counts are 64-bit:
    the stored count starts non-negative and the turns taken stay below
    what is left up to the largest [int64]. *)
Theorem stored_count_never_decreases (loc : GoTime.Location) (w0 : World)
    (steps : list Step) (s : Step) (key : AggregateKey) :
  0 ≤ stored (cassandra w0) key →
  stored (cassandra w0) key + Z.of_nat (length steps) + 1 ≤ Int64.max_int →
  let st := run loc (w0, new_Aggregator) steps in
  0 ≤ pending st.2 key
  ∧ stored (cassandra st.1) key ≤ stored (cassandra (step loc st s).1) key.
Proof.
  intros Hstart Hmax st.
  assert (Hst : within_budget (stored (cassandra w0) key) (0 + Z.of_nat (length steps))
                  key st).
  { apply run_within_budget; [done|lia|lia|].
    unfold within_budget, pending; simpl. rewrite lookup_empty; simpl. lia. }
  split; [apply Hst|].
  eapply (step_within_budget loc key _ Hstart (0 + Z.of_nat (length steps)));
    [lia|lia|exact Hst].
Qed.
End monotonicity_claim.

Section monotonicity_sample.
Import Sample.
Local Existing Instance exact_hash.

Lemma stored_count_never_decreases_witness :
  let D := decoder [e1; e2] in
  let steps := [Fetch m1 redis_up false; Tick writes_ok; Fetch m2 redis_up false] in
  let st := run GoTime.UTC (empty_world, new_Aggregator) steps in
  stored (cassandra st.1) key_s1 = 1
  ∧ stored (cassandra (step GoTime.UTC st (Tick writes_ok)).1) key_s1 = 2
  ∧ 0 ≤ pending st.2 key_s1
  ∧ stored (cassandra st.1) key_s1
    ≤ stored (cassandra (step GoTime.UTC st (Tick writes_ok)).1) key_s1.
Proof.
  intros D steps st.
  split; [vm_compute; reflexivity|]. split; [vm_compute; reflexivity|].
  apply (stored_count_never_decreases GoTime.UTC empty_world steps (Tick writes_ok) key_s1).
  - vm_compute. discriminate.
  - vm_compute. discriminate.
Defined.
End monotonicity_sample.

(** ** Batches of deliveries *)

Lemma accumulate_all_cons `{BloomHash} loc st e m env batch :
  accumulate_all loc st ((e, m, env) :: batch)
  = accumulate_all loc (accumulate loc env st e m) batch.
Proof. reflexivity. Qed.

(** ** Replay of a flushed batch (claim C3) *)

Section replay.
Context `{BloomHash}.

Lemma flush_nothing_pending env st :
  counts st.2 = ∅ → cassandra (flush env st).1 = cassandra st.1.
Proof.
  destruct st as [w a]; simpl. intros Hc. unfold flush.
  destruct (bool_decide (size (counts a) = 0%nat) && negb (hasMsg a)); [done|].
  simpl. by rewrite Hc, map_fold_empty.
Qed.

(** Events whose ids the filters already report are all skipped. *)
Lemma accumulate_all_seen_skipped loc batch st :
  (∀ e m env, (e, m, env) ∈ batch →
     answered env ∧ seen (redis st.1) (event_day loc e) (EventID e) = true) →
  counts (accumulate_all loc st batch).2 = counts st.2
  ∧ cassandra (accumulate_all loc st batch).1 = cassandra st.1.
Proof.
  revert st. induction batch as [|[[e m] env] batch IH]; intros st Hall; [done|].
  rewrite accumulate_all_cons.
  destruct (Hall e m env) as [Hans Hseen]; [left|].
  destruct (IH (accumulate loc env st e m)) as [-> ->].
  - intros e' m' env' Hin. destruct (Hall e' m' env') as [? ?]; [by right|].
    split; [done|]. by apply accumulate_seen_mono.
  - rewrite accumulate_answered_counts by done. rewrite Hseen.
    by destruct (accumulate_backends loc env st e m) as [-> _].
Qed.

(** No false negatives over a batch: after a run in which Redis answered
    every check, the filters report every id of the batch. *)
Lemma accumulate_all_marks_seen loc batch st e m env :
  (∀ e m env, (e, m, env) ∈ batch → answered env) →
  (e, m, env) ∈ batch →
  seen (redis (accumulate_all loc st batch).1) (event_day loc e) (EventID e) = true.
Proof.
  revert st. induction batch as [|[[e' m'] env'] batch IH]; intros st Hall Hin.
  - by apply elem_of_nil in Hin.
  - rewrite accumulate_all_cons.
    assert (Hmono : ∀ st',
               seen (redis st'.1) (event_day loc e) (EventID e) = true →
               seen (redis (accumulate_all loc st' batch).1) (event_day loc e) (EventID e)
               = true).
    { clear. induction batch as [|[[e2 m2] env2] batch IH2]; intros st' Hs; [done|].
      rewrite accumulate_all_cons.
      apply IH2. by apply accumulate_seen_mono. }
    apply elem_of_cons in Hin as [Heq | Hin].
    + inversion Heq; subst. apply Hmono. apply accumulate_answered_seen.
      apply (Hall e' m' env'). left.
    + apply IH; [|done]. intros ? ? ? ?. eapply Hall. by right.
Qed.

(** C3, as amended: when every event id of a batch is already reported by
    its day's filter, and Redis answers every dedup check of the replay,
    accumulating the batch again from a restarted aggregator counts
    nothing, and the flush that follows leaves the counter table as it
    was, whatever the outcome of its writes. *)
Theorem replay_applies_no_increment (loc : GoTime.Location) (w : World)
    (batch : list (ListenEvent * Message * RedisEnv)) (fenv : FlushEnv) :
  (∀ e m env, (e, m, env) ∈ batch →
     answered env ∧ seen (redis w) (event_day loc e) (EventID e) = true) →
  let st := accumulate_all loc (w, new_Aggregator) batch in
  counts st.2 = ∅ ∧ cassandra (flush fenv st).1 = cassandra w.
Proof.
  intros Hall st.
  destruct (accumulate_all_seen_skipped loc batch (w, new_Aggregator) Hall) as [Hc Ht].
  split; [exact Hc|].
  rewrite flush_nothing_pending by exact Hc. exact Ht.
Qed.

(** The crash scenario in full: a first run in which Redis answered every
    check, its flush, a restart before the offset commit, and the replay
    of the same deliveries. *)
Corollary crash_replay_changes_nothing (loc : GoTime.Location) (w0 : World)
    (batch replay : list (ListenEvent * Message * RedisEnv)) (fenv1 fenv2 : FlushEnv) :
  (∀ e m env, (e, m, env) ∈ batch → answered env) →
  (∀ e m env, (e, m, env) ∈ replay → answered env ∧ e ∈ events_of batch) →
  let w1 := (flush fenv1 (accumulate_all loc (w0, new_Aggregator) batch)).1 in
  cassandra (flush fenv2 (accumulate_all loc (w1, new_Aggregator) replay)).1 = cassandra w1.
Proof.
  intros Hans Hrep w1.
  destruct (accumulate_all_seen_skipped loc replay (w1, new_Aggregator)) as [Hc Ht].
  - intros e m env Hin. destruct (Hrep e m env Hin) as [Ha He]. split; [done|].
    apply list_elem_of_fmap in He as ([[e' m'] env'] & -> & Hin'). simpl.
    subst w1.
    assert (Hr : ∀ st, redis (flush fenv1 st).1 = redis st.1).
    { intros [w a]. unfold flush. by destruct (_ && _). }
    rewrite Hr. by eapply accumulate_all_marks_seen.
  - rewrite flush_nothing_pending by exact Hc. exact Ht.
Qed.
End replay.

Section replay_sample.
Import Sample.
Local Existing Instance length_hash.

(** C3, refuted as stated: the event was counted, its id is in the day's
    filter and its delta is stored. On the replay Redis does not answer,
    the event is counted a second time and the flush adds it again. *)
Lemma replay_with_redis_down_counts_again :
  let w1 := (flush writes_ok
               (accumulate_all GoTime.UTC (empty_world, new_Aggregator)
                  [(e1, m1, redis_up)])).1 in
  let w2 := (flush writes_ok
               (accumulate_all GoTime.UTC (w1, new_Aggregator)
                  [(e1, m1, redis_down)])).1 in
  seen (redis w1) (event_day GoTime.UTC e1) (EventID e1) = true
  ∧ stored (cassandra w1) key_s1 = 1
  ∧ stored (cassandra w2) key_s1 = 2.
Proof. vm_compute. repeat split; reflexivity. Qed.

Lemma replay_applies_no_increment_witness :
  let w1 := (flush writes_ok
               (accumulate_all GoTime.UTC (empty_world, new_Aggregator)
                  [(e1, m1, redis_up)])).1 in
  stored (cassandra w1) key_s1 = 1
  ∧ cassandra (flush writes_ok
                 (accumulate_all GoTime.UTC (w1, new_Aggregator) [(e1, m1, redis_up)])).1
    = cassandra w1.
Proof.
  intros w1. split; [vm_compute; reflexivity|].
  apply (replay_applies_no_increment GoTime.UTC w1 [(e1, m1, redis_up)] writes_ok).
  intros e m env Hin. apply list_elem_of_singleton in Hin. inversion Hin; subst.
  split; [by split|]. vm_compute. reflexivity.
Defined.
End replay_sample.

(** ** Deduplicated counting (claim C1) *)

Section ids.
Context (loc : GoTime.Location) (key : AggregateKey).

Lemma elem_of_ids_for x events :
  x ∈ ids_for loc key events ↔ ∃ e, e ∈ events ∧ event_key loc e = key ∧ EventID e = x.
Proof.
  unfold ids_for. rewrite elem_of_list_to_set, list_elem_of_fmap. split.
  - intros (e & -> & He). apply list_elem_of_filter in He as [? ?]. eauto.
  - intros (e & He & Hk & <-). exists e. split; [done|].
    by apply list_elem_of_filter.
Qed.

Lemma ids_for_snoc events e :
  ids_for loc key (events ++ [e]) =
    ids_for loc key events ∪ (if decide (event_key loc e = key) then {[ EventID e ]} else ∅).
Proof.
  unfold ids_for. rewrite filter_app, fmap_app, list_to_set_app_L. f_equal.
  rewrite filter_cons, filter_nil. case_decide; simpl; set_solver.
Qed.

Lemma ids_for_size events : (size (ids_for loc key events) ≤ length events)%nat.
Proof.
  induction events as [|e events IH] using rev_ind; [done|].
  rewrite ids_for_snoc, length_app; simpl.
  etrans; [apply (subseteq_size _ (ids_for loc key events ∪ {[ EventID e ]}))|].
  - case_decide; set_solver.
  - rewrite size_union_alt.
    assert (size (({[EventID e]} : gset string) ∖ ids_for loc key events) ≤ 1)%nat.
    { etrans; [apply (subseteq_size _ {[EventID e]}); set_solver|].
      by rewrite size_singleton. }
    lia.
Qed.
End ids.

Section no_over_count.
Context `{BloomHash}.
Context (loc : GoTime.Location) (key : AggregateKey).

(** One answered delivery, after the events [prior]: every event handled
    so far is reported by its day's filter, and the pending delta of the
    key is at most the number of distinct ids delivered for it. *)
Lemma accumulate_bounded (prior : list ListenEvent) env st e m :
  answered env →
  Z.of_nat (length prior) < Int64.max_int →
  (∀ e', e' ∈ prior → seen (redis st.1) (event_day loc e') (EventID e') = true) →
  0 ≤ pending st.2 key ≤ distinct_ids loc key prior →
  (∀ e', e' ∈ prior ++ [e] →
     seen (redis (accumulate loc env st e m).1) (event_day loc e') (EventID e') = true)
  ∧ 0 ≤ pending (accumulate loc env st e m).2 key ≤ distinct_ids loc key (prior ++ [e]).
Proof.
  intros Hans Hlen Hseen Hpend. split.
  - intros e' [Hin | Hin]%elem_of_app.
    + by apply accumulate_seen_mono, Hseen.
    + apply list_elem_of_singleton in Hin as ->. by apply accumulate_answered_seen.
  - unfold pending, distinct_ids in *.
    rewrite accumulate_answered_counts by done.
    pose proof (ids_for_size loc key prior) as Hsz.
    assert (Hmono : (size (ids_for loc key prior) ≤ size (ids_for loc key (prior ++ [e])))%nat).
    { apply subseteq_size. rewrite ids_for_snoc. set_solver. }
    destruct (seen (redis st.1) (event_day loc e) (EventID e)) eqn:Hs; [lia|].
    rewrite incr_lookup. case_decide as Hk; [|lia].
    assert (Hnew : EventID e ∉ ids_for loc key prior).
    { intros (e' & Hin & Hk' & Hid)%elem_of_ids_for.
      specialize (Hseen e' Hin). rewrite Hid in Hseen.
      assert (event_day loc e' = event_day loc e) as Hday.
      { change (KeyDay (event_key loc e') = KeyDay (event_key loc e)). congruence. }
      rewrite Hday in Hseen. congruence. }
    rewrite ids_for_snoc, decide_True by done.
    rewrite size_union by set_solver. rewrite size_singleton.
    rewrite add_in_range; [lia|].
    int64_lia.
Qed.

Lemma accumulate_all_bounded batch (prior : list ListenEvent) st :
  (∀ e m env, (e, m, env) ∈ batch → answered env) →
  Z.of_nat (length prior) + Z.of_nat (length batch) ≤ Int64.max_int →
  (∀ e', e' ∈ prior → seen (redis st.1) (event_day loc e') (EventID e') = true) →
  0 ≤ pending st.2 key ≤ distinct_ids loc key prior →
  0 ≤ pending (accumulate_all loc st batch).2 key
    ≤ distinct_ids loc key (prior ++ events_of batch).
Proof.
  revert prior st. induction batch as [|[[e m] env] batch IH];
    intros prior st Hans Hlen Hseen Hpend.
  - simpl. by rewrite app_nil_r.
  - rewrite accumulate_all_cons.
    change (events_of ((e, m, env) :: batch)) with (e :: events_of batch).
    replace (prior ++ e :: events_of batch) with ((prior ++ [e]) ++ events_of batch)
      by (by rewrite <- app_assoc).
    rewrite length_cons, Nat2Z.inj_succ in Hlen.
    destruct (accumulate_bounded prior env st e m) as [Hseen' Hpend'];
      [apply (Hans e m env); left|lia|done|done|].
    apply IH; [|rewrite length_app; simpl; lia|done|done].
    intros ? ? ? ?. eapply Hans. by right.
Qed.
End no_over_count.

Section exact_count.
Context `{BloomHash}.
Context (loc : GoTime.Location) (key : AggregateKey) (all : list ListenEvent).
Context (Hfree : collision_free (EventID <$> all)).
Context (Hkeys : ∀ e e', e ∈ all → e' ∈ all →
                   EventID e = EventID e' → event_key loc e = event_key loc e').

(** The bits a day's filter holds after the events [prior], when it
    started empty. *)
Local Abbreviation filter_bits prior k :=
  (⋃ (bloom_positions <$> (EventID <$> filter (λ e, bloomKey (event_day loc e) = k) prior))).

Lemma accumulate_exact (prior : list ListenEvent) env st e m :
  answered env →
  Z.of_nat (length prior) < Int64.max_int →
  (∀ e', e' ∈ prior → e' ∈ all) → e ∈ all →
  (∀ k, bits_at (redis st.1) k = filter_bits prior k) →
  pending st.2 key = distinct_ids loc key prior →
  (∀ k, bits_at (redis (accumulate loc env st e m).1) k = filter_bits (prior ++ [e]) k)
  ∧ pending (accumulate loc env st e m).2 key = distinct_ids loc key (prior ++ [e]).
Proof.
  intros Hans Hlen Hprior He Hbits Hpend. split.
  - intros k. rewrite accumulate_redis.
    destruct (checkAndAddToBloom_answered env (redis st.1) (event_day loc e)
                (EventID e) Hans) as (srv' & -> & Hb); simpl.
    rewrite Hb, Hbits, filter_app, !fmap_app, union_list_app_L.
    rewrite filter_cons, filter_nil.
    destruct (decide (bloomKey (event_day loc e) = k)); simpl; set_solver.
  - unfold pending, distinct_ids in *.
    rewrite accumulate_answered_counts by done.
    pose proof (ids_for_size loc key prior) as Hsz.
    rewrite ids_for_snoc.
    destruct (seen (redis st.1) (event_day loc e) (EventID e)) eqn:Hs.
    + (* reported present: an earlier delivery carried the same id *)
      case_decide as Hk; [|by rewrite (right_id_L ∅ (∪))].
      apply bool_decide_eq_true in Hs. rewrite Hbits in Hs.
      apply Hfree in Hs.
      * apply list_elem_of_fmap in Hs as (e' & Hid & Hin).
        apply list_elem_of_filter in Hin as [_ Hin].
        assert (EventID e ∈ ids_for loc key prior) as Hmem.
        { apply elem_of_ids_for. exists e'. split; [done|]. split; [|done].
          rewrite <- Hk. apply Hkeys; auto. }
        replace (ids_for loc key prior ∪ {[EventID e]}) with (ids_for loc key prior)
          by set_solver.
        done.
      * by apply list_elem_of_fmap_2.
      * intros x (e' & -> & Hin)%list_elem_of_fmap.
        apply list_elem_of_filter in Hin as [_ Hin].
        by apply list_elem_of_fmap_2, Hprior.
    + (* not reported: no earlier delivery of the key carried the id *)
      rewrite incr_lookup. case_decide as Hk.
      * assert (Hnew : EventID e ∉ ids_for loc key prior).
        { intros (e' & Hin & Hk' & Hid)%elem_of_ids_for.
          apply bool_decide_eq_false in Hs. apply Hs. rewrite Hbits.
          intros p Hp. apply elem_of_union_list.
          exists (bloom_positions (EventID e)). split; [|done].
          apply list_elem_of_fmap_2. rewrite <- Hid.
          apply list_elem_of_fmap_2, list_elem_of_filter. split; [|done].
          f_equal. change (KeyDay (event_key loc e') = KeyDay (event_key loc e)).
          congruence. }
        rewrite size_union by set_solver. rewrite size_singleton.
        rewrite add_in_range; [lia|].
        int64_lia.
      * by rewrite (right_id_L ∅ (∪)).
Qed.

Lemma accumulate_all_exact batch (prior : list ListenEvent) st :
  (∀ e m env, (e, m, env) ∈ batch → answered env ∧ e ∈ all) →
  Z.of_nat (length prior) + Z.of_nat (length batch) ≤ Int64.max_int →
  (∀ e', e' ∈ prior → e' ∈ all) →
  (∀ k, bits_at (redis st.1) k = filter_bits prior k) →
  pending st.2 key = distinct_ids loc key prior →
  pending (accumulate_all loc st batch).2 key
    = distinct_ids loc key (prior ++ events_of batch).
Proof.
  revert prior st. induction batch as [|[[e m] env] batch IH];
    intros prior st Hans Hlen Hprior Hbits Hpend.
  - simpl. by rewrite app_nil_r.
  - rewrite accumulate_all_cons.
    change (events_of ((e, m, env) :: batch)) with (e :: events_of batch).
    replace (prior ++ e :: events_of batch) with ((prior ++ [e]) ++ events_of batch)
      by (by rewrite <- app_assoc).
    rewrite length_cons, Nat2Z.inj_succ in Hlen.
    destruct (Hans e m env) as [Ha He]; [left|].
    destruct (accumulate_exact prior env st e m) as [Hbits' Hpend'];
      [done|lia|done|done|done|done|].
    apply IH; [|rewrite length_app; simpl; lia| |done|done].
    + intros ? ? ? ?. eapply Hans. by right.
    + intros e' [?| ->%list_elem_of_singleton]%elem_of_app; auto.
Qed.
End exact_count.

Section dedup_claim.
Context `{BloomHash}.

Lemma accumulate_all_backends loc batch st :
  cassandra (accumulate_all loc st batch).1 = cassandra st.1.
Proof.
  revert st. induction batch as [|[[e m] env] batch IH]; intros st; [done|].
  rewrite accumulate_all_cons.
  rewrite IH. apply accumulate_backends.
Qed.

(** C1, as amended: take any batch of deliveries, duplicates included,
    accumulated from the start state and then flushed, in which Redis
    answers every dedup check. For every key the persisted increment is
    at least zero and at most the number of distinct event ids delivered
    for the key, so duplicates never inflate the stored count. It is
    equal to that number when, in addition, the filters start empty, the
    hash positions give no false positive on the ids of the batch, an
    event id always comes with the same key, and the counter write of
    the key succeeds. (Counts are 64-bit: the stored count starts
    non-negative and the batch fits below the largest [int64].) *)
Theorem dedup_never_over_counts (loc : GoTime.Location) (w0 : World)
    (batch : list (ListenEvent * Message * RedisEnv)) (fenv : FlushEnv)
    (key : AggregateKey) :
  (∀ e m env, (e, m, env) ∈ batch → answered env) →
  0 ≤ stored (cassandra w0) key →
  stored (cassandra w0) key + Z.of_nat (length batch) ≤ Int64.max_int →
  let st := flush fenv (accumulate_all loc (w0, new_Aggregator) batch) in
  let increment := stored (cassandra st.1) key - stored (cassandra w0) key in
  0 ≤ increment ≤ distinct_ids loc key (events_of batch)
  ∧ ((∀ k, bits_at (redis w0) k = ∅) →
     collision_free (EventID <$> events_of batch) →
     (∀ e e', e ∈ events_of batch → e' ∈ events_of batch →
        EventID e = EventID e' → event_key loc e = event_key loc e') →
     write_fails fenv key = false →
     increment = distinct_ids loc key (events_of batch)).
Proof.
  intros Hans Hstart Hmax st increment. subst st increment.
  pose proof (accumulate_all_bounded loc key batch [] (w0, new_Aggregator) Hans) as Hb.
  pose proof (accumulate_all_backends loc batch (w0, new_Aggregator)) as Ht.
  pose proof (ids_for_size loc key (events_of batch)) as Hsz.
  unfold events_of in Hsz at 2. rewrite length_fmap in Hsz.
  destruct (accumulate_all loc (w0, new_Aggregator) batch) as [w a] eqn:Hacc.
  simpl in Hb, Ht. rewrite flush_stored, Ht.
  assert (Hpend : 0 ≤ pending a key ≤ distinct_ids loc key (events_of batch)).
  { apply Hb.
    - simpl. lia.
    - intros e' Hin. by apply elem_of_nil in Hin.
    - unfold pending, distinct_ids; simpl. by rewrite lookup_empty. }
  unfold distinct_ids in *.
  assert (Hadd : ∀ delta, 0 ≤ delta ≤ Z.of_nat (size (ids_for loc key (events_of batch))) →
            Int64.add (stored (cassandra w0) key) delta = stored (cassandra w0) key + delta).
  { intros delta Hd. apply add_in_range.
    int64_lia. }
  split.
  - unfold pending in Hpend.
    destruct (counts a !! key) as [delta|]; simpl in Hpend; [|lia].
    destruct (write_fails fenv key); [lia|]. rewrite Hadd by done. lia.
  - intros Hempty Hfree Hkeys Hok.
    pose proof (accumulate_all_exact loc key (events_of batch) Hfree Hkeys batch []
                  (w0, new_Aggregator)) as Hex.
    rewrite Hacc in Hex. simpl in Hex. unfold distinct_ids in Hex.
    assert (Hp : pending a key = Z.of_nat (size (ids_for loc key (events_of batch)))).
    2: { unfold pending in Hp.
         destruct (counts a !! key) as [delta|]; simpl in Hp; [|lia].
         rewrite Hok, Hadd; lia. }
    apply Hex.
    + intros e m env Hin. split; [by eapply Hans|].
      by apply (list_elem_of_fmap_2' (λ d, d.1.1) _ (e, m, env)).
    + lia.
    + intros e' Hin. by apply elem_of_nil in Hin.
    + intros k. by rewrite Hempty.
    + unfold pending; simpl. by rewrite lookup_empty.
Qed.

(** The collision-free hash family gives no false positive on any ids. *)
Lemma exact_hash_collision_free (ids : list string) :
  @collision_free Sample.exact_hash ids.
Proof.
  intros x S _ _ Hsub.
  assert (Hx : Npos (encode x) ∈ ⋃ (@bloom_positions Sample.exact_hash <$> S)).
  { apply Hsub. unfold bloom_positions, Sample.exact_hash. set_solver. }
  apply elem_of_union_list in Hx as (X & HX & Hx).
  apply list_elem_of_fmap in HX as (y & -> & Hy).
  unfold bloom_positions, Sample.exact_hash in Hx.
  apply elem_of_singleton in Hx. injection Hx as Hx.
  by apply (inj encode) in Hx as ->.
Qed.
End dedup_claim.

Section dedup_sample.
Import Sample.

(** C1, refuted as stated: the same event is delivered twice within its
    day's window; Redis does not answer the dedup check of the second
    delivery, which is counted anyway. One distinct id, two persisted. *)
Lemma duplicate_counted_when_redis_down :
  let batch := [(e1, m1, redis_up); (e1, m1_again, redis_down)] in
  let st := flush writes_ok
              (@accumulate_all length_hash GoTime.UTC (empty_world, new_Aggregator) batch) in
  distinct_ids GoTime.UTC key_s1 (events_of batch) = 1
  ∧ stored (cassandra st.1) key_s1 - stored (cassandra empty_world) key_s1 = 2.
Proof. vm_compute. split; reflexivity. Qed.

Lemma dedup_never_over_counts_witness :
  distinct_ids GoTime.UTC key_s1 (events_of deliveries) = 2
  ∧ stored (cassandra (flush writes_ok
              (@accumulate_all exact_hash GoTime.UTC (empty_world, new_Aggregator)
                 deliveries)).1) key_s1
    - stored (cassandra empty_world) key_s1 = 2.
Proof.
  assert (Hans : ∀ e m env, (e, m, env) ∈ deliveries → answered env).
  { intros e m env Hin. unfold deliveries in Hin.
    repeat (apply elem_of_cons in Hin as [Hin|Hin];
            [inversion Hin; split; [reflexivity|discriminate]|]).
    by apply elem_of_nil in Hin. }
  assert (Hstart : 0 ≤ stored (cassandra empty_world) key_s1)
    by (vm_compute; intros Hc; discriminate Hc).
  assert (Hmax : stored (cassandra empty_world) key_s1 + Z.of_nat (length deliveries)
                 ≤ Int64.max_int) by (vm_compute; intros Hc; discriminate Hc).
  pose proof (@dedup_never_over_counts exact_hash GoTime.UTC empty_world deliveries
                writes_ok key_s1 Hans Hstart Hmax) as [_ Hexact].
  split; [vm_compute; reflexivity|].
  etrans; [apply Hexact|vm_compute; reflexivity].
  - intros k. reflexivity.
  - apply exact_hash_collision_free.
  - clear. intros e e' He He' Hid. unfold deliveries, events_of in He, He'.
    cbn [fmap list_fmap fst] in He, He'.
    repeat (apply elem_of_cons in He as [->|He]); [| | |by apply elem_of_nil in He].
    all: repeat (apply elem_of_cons in He' as [->|He']); [| | |by apply elem_of_nil in He'].
    all: try reflexivity.
    all: exfalso; clear -Hid; cbv in Hid; discriminate Hid.
  - reflexivity.
Defined.
End dedup_sample.

(** ** The read endpoint: validation (claim C7) *)

Section validation.
Import Api.
Context `{Sorter} `{JsonEncoder}.


Lemma getQueryInt_parsed (r : Request) (key : string) (d i : Z) :
  Values_Get (Query r) key ≠ ""%string →
  GoStrings.Atoi (Values_Get (Query r) key) = Ok i → getQueryInt r key d = i.
Proof.
  intros Hne Hi. unfold getQueryInt. rewrite Hi.
  destruct (String.eqb_spec (Values_Get (Query r) key) ""); done.
Qed.

End validation.

Section validation_sample.
Import Api Api.Sample.
Local Existing Instance insertion_sorter.
Local Existing Instance go_json.


End validation_sample.

(** ** The read endpoint: caching (claim C6) *)

Section caching.
Import Api.
Context `{Sorter} `{JsonEncoder}.

End caching.

Section caching_sample.
Import Api Api.Sample.
Local Existing Instance insertion_sorter.
Local Existing Instance go_json.


End caching_sample.

(** ** The read endpoint: merging the day window *)

Section merge.
Import Api.
Context (tbl : gmap (string * string * string) Z) (userID : string).

Lemma elem_of_select_day day s c :
  (s, c) ∈ select_day tbl userID day ↔ tbl !! (userID, day, s) = Some c.
Proof.
  unfold select_day. rewrite list_elem_of_omap. split.
  - intros ([[[u d] s'] c'] & Hin & Hrow). apply elem_of_map_to_list in Hin.
    case_bool_decide as Hud; [|done]. destruct Hud as [-> ->]. by simplify_eq.
  - intros Hrow. exists (userID, day, s, c). split; [by apply elem_of_map_to_list|].
    by rewrite bool_decide_eq_true_2.
Qed.

(** A partition holds one row per song. *)
Lemma select_day_functional day s c1 c2 :
  (s, c1) ∈ select_day tbl userID day → (s, c2) ∈ select_day tbl userID day → c1 = c2.
Proof. rewrite !elem_of_select_day. congruence. Qed.

Lemma NoDup_select_day day : NoDup (select_day tbl userID day).
Proof.
  unfold select_day. generalize (NoDup_map_to_list tbl).
  generalize (map_to_list tbl) as l.
  induction l as [|[[[u d] s] c] l IH]; intros Hnd; [constructor|].
  apply NoDup_cons in Hnd as [Hnotin Hnd]. simpl.
  case_bool_decide as Hud; [|by apply IH].
  destruct Hud as [-> ->]. apply NoDup_cons. split; [|by apply IH].
  intros ([[[u' d'] s'] c'] & Hin & Hrow)%list_elem_of_omap.
  case_bool_decide as Hud'; [|done]. destruct Hud' as [-> ->]. by simplify_eq.
Qed.

(** Scanning rows that hold a song at most once. *)
Lemma scan_rows_absent rows (m : gmap string Z) s :
  (∀ c, (s, c) ∉ rows) → scan_rows rows m !! s = m !! s.
Proof.
  unfold scan_rows. revert m.
  induction rows as [|[s' c'] rows IH]; intros m Hnot; [done|].
  cbn [foldl]. rewrite IH.
  - apply lookup_insert_ne. intros ->. apply (Hnot c'). left.
  - intros c Hin. apply (Hnot c). by right.
Qed.

Lemma scan_rows_present rows (m : gmap string Z) s c :
  (s, c) ∈ rows → (∀ c', (s, c') ∈ rows → c' = c) → NoDup rows →
  scan_rows rows m !! s = Some (Int64.add (default 0 (m !! s)) c).
Proof.
  revert m. induction rows as [|[s' c'] rows IH]; intros m Hin Hfun Hnd.
  - by apply elem_of_nil in Hin.
  - apply NoDup_cons in Hnd as [Hnotin Hnd].
    change (scan_rows ((s', c') :: rows) m)
      with (scan_rows rows (<[s' := Int64.add (default 0 (m !! s')) c']> m)).
    destruct (decide (s' = s)) as [->|Hne].
    + assert (c' = c) as -> by (apply Hfun; left).
      rewrite scan_rows_absent; [by rewrite lookup_insert_eq|].
      intros c2 Hin2. assert (c2 = c) as -> by (apply Hfun; by right). done.
    + rewrite IH; [by rewrite lookup_insert_ne| |intros; apply Hfun; by right|done].
      apply elem_of_cons in Hin as [[=]|Hin]; [congruence|done].
Qed.

(** One day of the window, song by song. *)
Lemma scan_day_lookup day (m : gmap string Z) s :
  scan_rows (select_day tbl userID day) m !! s =
    match tbl !! (userID, day, s) with
    | Some c => Some (Int64.add (default 0 (m !! s)) c)
    | None => m !! s
    end.
Proof.
  destruct (tbl !! (userID, day, s)) as [c|] eqn:Hrow.
  - apply scan_rows_present; [by apply elem_of_select_day| |apply NoDup_select_day].
    intros c' Hin. apply elem_of_select_day in Hin. congruence.
  - apply scan_rows_absent. intros c Hin. apply elem_of_select_day in Hin. congruence.
Qed.

Lemma window_total_unrecorded days s :
  ¬ recorded tbl userID days s → window_total tbl userID days s = 0.
Proof.
  unfold recorded, window_total, day_count.
  induction days as [|day days IH]; intros Hnot; [done|].
  cbn [foldr]. rewrite IH.
  - destruct (tbl !! (userID, day, s)) eqn:Hrow; [|done].
    destruct Hnot. apply Exists_cons_hd. by rewrite Hrow.
  - intros Hex. apply Hnot. by apply Exists_cons_tl.
Qed.

(** The whole window: a song with a row on some day ends with the sum of
    its per-day counts, in 64-bit arithmetic, days without a row adding
    nothing; a song without any row is not in the map. *)
Lemma scan_window_lookup days (m : gmap string Z) s :
  foldl (λ m day, scan_rows (select_day tbl userID day) m) m days !! s =
    if decide (recorded tbl userID days s)
    then Some (Int64.wrap (default 0 (m !! s) + window_total tbl userID days s))
    else m !! s.
Proof.
  revert m. induction days as [|day days IH]; intros m.
  - cbn [foldl]. destruct (decide _) as [Hex|]; [|done].
    unfold recorded in Hex. by apply Exists_nil in Hex.
  - cbn [foldl]. rewrite IH, scan_day_lookup.
    destruct (decide (recorded tbl userID days s)) as [Hrest|Hrest].
    + rewrite decide_True by (by apply Exists_cons_tl).
      unfold window_total at 2. cbn [foldr]. fold (window_total tbl userID days s).
      unfold day_count.
      destruct (tbl !! (userID, day, s)) as [c|]; simpl.
      * unfold Int64.add. rewrite wrap_add_l. do 2 f_equal. lia.
      * do 2 f_equal.
    + pose proof (window_total_unrecorded days s Hrest) as Hzero.
      unfold window_total at 1. cbn [foldr]. fold (window_total tbl userID days s).
      rewrite Hzero. unfold day_count.
      destruct (tbl !! (userID, day, s)) as [c|] eqn:Hrow; simpl.
      * rewrite decide_True by (apply Exists_cons_hd; by rewrite Hrow).
        unfold Int64.add. do 2 f_equal. lia.
      * rewrite decide_False; [done|].
        intros [Hh|Ht]%Exists_cons; [|done]. rewrite Hrow in Hh. by destruct Hh.
Qed.
End merge.

(** ** The read endpoint: ranking (claims C4 and C5) *)

Section ranking.
Import Api.
Context `{S : Sorter} `{!SorterOk S}.
Context (tbl : gmap (string * string * string) Z) (userID : string).

Lemma scan_days_ok env days (m : gmap string Z) :
  (∀ day, day ∈ days → query_fails env day = false) →
  scan_days env tbl userID days m =
    Ok (foldl (λ m day, scan_rows (select_day tbl userID day) m) m days).
Proof.
  revert m. induction days as [|day days IH]; intros m Hok; [done|].
  cbn [scan_days foldl]. rewrite (Hok day) by left.
  apply IH. intros d Hd. apply Hok. by right.
Qed.

Lemma merged_lookup days s :
  merged tbl userID days !! s =
    if decide (recorded tbl userID days s)
    then Some (Int64.wrap (window_total tbl userID days s))
    else None.
Proof. unfold merged. rewrite scan_window_lookup, lookup_empty. done. Qed.

Lemma computeTopK_ok env days k :
  (∀ day, day ∈ dayList env days → query_fails env day = false) → 0 ≤ k →
  computeTopK env tbl userID days k =
    Ok (imap ranked
          (take (Z.to_nat k)
             (sort_Slice by_count_desc
                ((λ '(s, c), {| songID := s; count := c |})
                   <$> range_order env (map_to_list (merged tbl userID (dayList env days))))))).
Proof.
  intros Hok Hk. unfold computeTopK. rewrite scan_days_ok by done.
  fold (merged tbl userID (dayList env days)). f_equal. unfold ranked. f_equal.
  destruct (Z.ltb_spec k (Z.of_nat (length (sort_Slice by_count_desc
    ((λ '(s, c), {| songID := s; count := c |})
       <$> range_order env (map_to_list (merged tbl userID (dayList env days)))))))); [done|].
  symmetry. apply take_ge. lia.
Qed.

(** The slice that [computeTopK] truncates and ranks. *)
Local Abbreviation sorted_slice env days :=
  (sort_Slice by_count_desc
     ((λ '(s, c), {| songID := s; count := c |})
        <$> range_order env (map_to_list (merged tbl userID (dayList env days))))).

Lemma sorted_slice_perm env days :
  range_ok env →
  sorted_slice env days
    ≡ₚ (λ '(s, c), {| songID := s; count := c |})
         <$> map_to_list (merged tbl userID (dayList env days)).
Proof. intros Hrange. by rewrite sort_Slice_perm, (Hrange _). Qed.

Lemma elem_of_sorted_slice env days sc :
  range_ok env →
  sc ∈ sorted_slice env days
    ↔ merged tbl userID (dayList env days) !! songID sc = Some (count sc).
Proof.
  intros Hrange. rewrite sorted_slice_perm by done.
  rewrite list_elem_of_fmap. split.
  - intros ([s c] & -> & Hin). by apply elem_of_map_to_list in Hin.
  - intros Hin. exists (songID sc, count sc). split; [by destruct sc|].
    by apply elem_of_map_to_list.
Qed.

Lemma sorted_slice_NoDup env days :
  range_ok env → NoDup (songID <$> sorted_slice env days).
Proof.
  intros Hrange. rewrite sorted_slice_perm by done.
  rewrite <- list_fmap_compose.
  rewrite (list_fmap_ext _ fst (map_to_list (merged tbl userID (dayList env days))));
    [apply NoDup_fst_map_to_list|by intros ? [? ?]].
Qed.

Lemma sorted_slice_descending env days :
  StronglySorted (λ x y, count y ≤ count x) (sorted_slice env days).
Proof.
  pose proof (sort_Slice_ordered
                ((λ '(s, c), {| songID := s; count := c |})
                   <$> range_order env (map_to_list (merged tbl userID (dayList env days)))))
    as Hord.
  unfold ordered_by in Hord.
  induction Hord as [|x l Hl IH Hx]; constructor; [done|].
  eapply Forall_impl; [exact Hx|]. intros y Hy. unfold by_count_desc in Hy.
  apply bool_decide_eq_false in Hy. lia.
Qed.
End ranking.

Section sorted_lists.
Context {A : Type} (R : relation A).

Lemma StronglySorted_lookup_lt (l : list A) (i j : nat) (x y : A) :
  StronglySorted R l → (i < j)%nat → l !! i = Some x → l !! j = Some y → R x y.
Proof.
  intros Hl Hij Hi Hj. rewrite <- (take_drop j l) in Hl.
  eapply StronglySorted_app_1_elem_of; [exact Hl| |].
  - apply list_elem_of_lookup. exists i. by rewrite lookup_take_lt.
  - apply list_elem_of_lookup. exists 0%nat. rewrite lookup_drop.
    by rewrite Nat.add_0_r.
Qed.
End sorted_lists.

(** The insertion sort meets the contract of [sort.Slice]. *)
Section insertion_sort.
Import Api.

Lemma sift_perm {A} (less : A → A → bool) x acc : sift less x acc ≡ₚ x :: acc.
Proof.
  induction acc as [|y acc IH]; [done|]. simpl.
  destruct (less x y); [|done]. rewrite IH. apply Permutation_swap.
Qed.

Lemma insertionSort_perm {A} (less : A → A → bool) l : insertionSort less l ≡ₚ l.
Proof.
  unfold insertionSort. rewrite <- Permutation_rev.
  assert (Hgen : ∀ acc, foldl (λ acc x, sift less x acc) acc l ≡ₚ acc ++ l).
  { induction l as [|x l IH]; intros acc; simpl; [by rewrite app_nil_r|].
    rewrite IH, sift_perm. simpl. apply Permutation_middle. }
  apply (Hgen []).
Qed.

Lemma sift_ascending x acc :
  StronglySorted (λ a b, count a ≤ count b) acc →
  StronglySorted (λ a b, count a ≤ count b) (sift by_count_desc x acc).
Proof.
  induction acc as [|y acc IH]; intros Hacc; simpl.
  - repeat constructor.
  - apply StronglySorted_cons in Hacc as [Hy Hacc]. unfold by_count_desc at 1.
    case_bool_decide as Hxy.
    + apply StronglySorted_cons. split; [|by apply IH].
      rewrite (sift_perm by_count_desc x acc). constructor; [lia|done].
    + apply StronglySorted_cons. split; [|by apply StronglySorted_cons].
      constructor; [lia|]. eapply Forall_impl; [exact Hy|]. simpl. lia.
Qed.

Lemma insertionSort_descending l :
  StronglySorted (λ x y, count y ≤ count x) (insertionSort by_count_desc l).
Proof.
  unfold insertionSort.
  assert (Hgen : ∀ acc, StronglySorted (λ a b, count a ≤ count b) acc →
            StronglySorted (λ a b, count a ≤ count b)
              (foldl (λ acc x, sift by_count_desc x acc) acc l)).
  { induction l as [|x l IH]; intros acc Hacc; simpl; [done|].
    by apply IH, sift_ascending. }
  specialize (Hgen [] (SSorted_nil _)).
  induction Hgen as [|x acc Hacc IH Hx]; simpl; [constructor|].
  apply StronglySorted_app_2; [|done|repeat constructor].
  intros x1 x2 Hx1 ->%list_elem_of_singleton.
  rewrite Forall_forall in Hx. apply Hx. by apply list_elem_of_In, in_rev, list_elem_of_In.
Qed.

Lemma insertion_sorter_ok : SorterOk insertion_sorter.
Proof.
  split.
  - intros less l. apply insertionSort_perm.
  - intros l. unfold ordered_by.
    pose proof (insertionSort_descending l) as Hs.
    unfold sort_Slice, insertion_sorter.
    induction Hs as [|x l' Hl' IH Hx]; constructor; [done|].
    eapply Forall_impl; [exact Hx|]. intros y Hy. unfold by_count_desc.
    apply bool_decide_eq_false. simpl in Hy. lia.
Qed.
End insertion_sort.

Section topk_claim.
Import Api.
Context `{S : Sorter} `{!SorterOk S}.

(** C4, as amended: for days and k within bounds, with every day of the
    window answered by Cassandra, the computation returns a list that
    - has at most K entries, entry [i] carrying rank [i + 1];
    - holds each song at most once, and only songs with a row on some
      day of the window: today (UTC) and the [days - 1] days before;
    - gives each song the sum of its per-day counts over the window, in
      64-bit arithmetic, a day without a row counting for zero;
    - is in descending order of summed count;
    - holds every song of the window, or else is full with K entries
      none of which counts less than a song left out.
    The order among songs of equal summed count is not determined. *)
Theorem computeTopK_ranks_window_totals (env : Env)
    (tbl : gmap (string * string * string) Z) (userID : string) (days k : Z) :
  range_ok env →
  (∀ day, day ∈ dayList env days → query_fails env day = false) →
  1 ≤ days ≤ 30 → 1 ≤ k ≤ 100 →
  ∃ results,
    computeTopK env tbl userID days k = Ok results
    ∧ Z.of_nat (length results) ≤ k
    ∧ (∀ i r, results !! i = Some r →
         Rank r = Z.of_nat i + 1
         ∧ recorded tbl userID (dayList env days) (SongID r)
         ∧ ListenCount r = Int64.wrap (window_total tbl userID (dayList env days) (SongID r)))
    ∧ NoDup (SongID <$> results)
    ∧ (∀ i j ri rj, (i ≤ j)%nat → results !! i = Some ri → results !! j = Some rj →
         ListenCount rj ≤ ListenCount ri)
    ∧ (∀ song, recorded tbl userID (dayList env days) song →
         (∃ r, r ∈ results ∧ SongID r = song)
         ∨ (Z.of_nat (length results) = k
            ∧ ∀ r, r ∈ results →
                Int64.wrap (window_total tbl userID (dayList env days) song)
                ≤ ListenCount r)).
Proof.
  intros Hrange Hok Hdays Hk.
  rewrite computeTopK_ok by (done || lia).
  set (l := sort_Slice by_count_desc _).
  pose proof (elem_of_sorted_slice tbl userID env days) as Hmem. fold l in Hmem.
  pose proof (sorted_slice_NoDup tbl userID env days Hrange) as Hnd. fold l in Hnd.
  pose proof (sorted_slice_descending tbl userID env days) as Hdesc. fold l in Hdesc.
  clearbody l.
  assert (Hlook : ∀ i r, imap ranked (take (Z.to_nat k) l) !! i = Some r →
            ∃ sc, l !! i = Some sc ∧ (i < Z.to_nat k)%nat ∧ r = ranked i sc).
  { intros i r Hi. rewrite list_lookup_imap in Hi.
    destruct (take (Z.to_nat k) l !! i) as [sc|] eqn:Hsc; [|done].
    apply lookup_take_Some in Hsc as [Hsc Hlt]. simpl in Hi.
    exists sc. by simplify_eq. }
  eexists. split; [reflexivity|]. repeat split.
  - rewrite length_imap, length_take. lia.
  - by destruct (Hlook i r H) as (sc & _ & _ & ->).
  - destruct (Hlook i r H) as (sc & Hsc & _ & ->). simpl.
    apply list_elem_of_lookup_2, Hmem in Hsc; [|done].
    rewrite merged_lookup in Hsc. by case_decide.
  - destruct (Hlook i r H) as (sc & Hsc & _ & ->). simpl.
    apply list_elem_of_lookup_2, Hmem in Hsc; [|done].
    rewrite merged_lookup in Hsc. case_decide; by simplify_eq.
  - assert (SongID <$> imap ranked (take (Z.to_nat k) l)
            = take (Z.to_nat k) (songID <$> l)) as ->.
    { rewrite <- fmap_take. apply list_eq. intros i.
      rewrite !list_lookup_fmap, list_lookup_imap.
      by destruct (take (Z.to_nat k) l !! i). }
    eapply sublist_NoDup; [exact Hnd|apply sublist_take].
  - intros i j ri rj Hij Hi Hj.
    destruct (Hlook i ri Hi) as (sci & Hsci & _ & ->).
    destruct (Hlook j rj Hj) as (scj & Hscj & _ & ->). simpl.
    destruct (decide (i = j)) as [->|Hne]; [by simplify_eq|].
    apply (StronglySorted_lookup_lt _ l i j sci scj Hdesc); [lia|done|done].
  - intros song Hrec.
    assert (Hin : {| songID := song;
                     count := Int64.wrap (window_total tbl userID (dayList env days) song) |}
                  ∈ l).
    { apply Hmem; [done|]. simpl. rewrite merged_lookup. by rewrite decide_True. }
    rewrite <- (take_drop (Z.to_nat k) l) in Hin, Hdesc.
    apply elem_of_app in Hin as [Hin|Hin].
    + left. apply list_elem_of_lookup in Hin as [i Hi].
      exists (ranked i {| songID := song;
                count := Int64.wrap (window_total tbl userID (dayList env days) song) |}).
      split; [|done]. apply list_elem_of_lookup. exists i.
      by rewrite list_lookup_imap, Hi.
    + right. split.
      * rewrite length_imap, length_take.
        assert (length (drop (Z.to_nat k) l) ≠ 0)%nat as Hlen
          by (by destruct (drop (Z.to_nat k) l); [apply elem_of_nil in Hin|]).
        rewrite length_drop in Hlen. lia.
      * intros r [i Hi]%list_elem_of_lookup.
        rewrite list_lookup_imap in Hi.
        destruct (take (Z.to_nat k) l !! i) as [sc|] eqn:Hsc; [|done].
        simpl in Hi. simplify_eq. simpl.
        apply list_elem_of_lookup_2 in Hsc.
        apply (StronglySorted_app_1_elem_of _ _ _ _ _ Hdesc Hsc Hin).
Qed.
End topk_claim.

Section topk_sample.
Import Api Api.Sample.
Local Existing Instance insertion_sorter.

(** C4, refuted as stated: songs "a" and "b" both total 4; when [range]
    yields the entry of "b" first, the result lists "b" at rank 1 and
    "a" at rank 2, against the ascending item id tie-break. *)
Lemma tie_not_broken_by_item_id :
  computeTopK (env backwards) table_tie "u1" 1 2
  = Ok [{| SongID := "b"; ListenCount := 4; Rank := 1 |};
        {| SongID := "a"; ListenCount := 4; Rank := 2 |}].
Proof. vm_compute. reflexivity. Qed.

(** Scenario A of the specification. *)
Example scenario_A :
  computeTopK (env forwards) tableA "u1" 2 2
  = Ok [{| SongID := "a"; ListenCount := 7; Rank := 1 |};
        {| SongID := "b"; ListenCount := 3; Rank := 2 |}].
Proof. vm_compute. reflexivity. Qed.

Lemma computeTopK_ranks_window_totals_witness :
  ∃ results,
    computeTopK (env forwards) tableA "u1" 2 2 = Ok results
    ∧ Z.of_nat (length results) ≤ 2
    ∧ NoDup (SongID <$> results).
Proof.
  destruct (@computeTopK_ranks_window_totals insertion_sorter insertion_sorter_ok
              (env forwards) tableA "u1" 2 2) as (results & Hrun & Hlen & _ & Hnd & _).
  - intros l. reflexivity.
  - intros day _. reflexivity.
  - lia.
  - lia.
  - exists results. auto.
Defined.

(** C5, refuted as stated: two runs over the same stored counts, in
    which [range] yields the two tied songs in different orders, return
    different lists. *)
Lemma tie_order_differs_between_runs :
  computeTopK (env forwards) table_tie "u1" 1 2
  = Ok [{| SongID := "a"; ListenCount := 4; Rank := 1 |};
        {| SongID := "b"; ListenCount := 4; Rank := 2 |}]
  ∧ computeTopK (env backwards) table_tie "u1" 1 2
    = Ok [{| SongID := "b"; ListenCount := 4; Rank := 1 |};
          {| SongID := "a"; ListenCount := 4; Rank := 2 |}].
Proof. vm_compute. split; reflexivity. Qed.
End topk_sample.

Section determinism.
Import Api.

Lemma scan_days_Ok_inv env tbl userID days (m m' : gmap string Z) :
  scan_days env tbl userID days m = Ok m' →
  ∀ day, day ∈ days → query_fails env day = false.
Proof.
  revert m. induction days as [|d days IH]; intros m Hrun day Hin.
  - by apply elem_of_nil in Hin.
  - cbn [scan_days] in Hrun. destruct (query_fails env d) eqn:Hd; [done|].
    apply elem_of_cons in Hin as [->|Hin]; [done|]. by eapply IH.
Qed.

Lemma computeTopK_Ok_inv `{S : Sorter} env tbl userID days k results :
  computeTopK env tbl userID days k = Ok results →
  ∀ day, day ∈ dayList env days → query_fails env day = false.
Proof.
  unfold computeTopK.
  destruct (scan_days env tbl userID (dayList env days) ∅) eqn:Hscan; [|done].
  intros _. by eapply scan_days_Ok_inv.
Qed.

(** C5, as amended: two successful runs over the same stored counts and
    the same day window, whatever order [range] and [sort.Slice] pick
    among equals, return lists with the same summed count and the same
    rank at every position; the two lists are identical whenever no two
    songs of the window have the same summed count. *)
Theorem computeTopK_deterministic_up_to_ties (S1 S2 : Sorter)
    `{!SorterOk S1} `{!SorterOk S2} (env1 env2 : Env)
    (tbl : gmap (string * string * string) Z) (userID : string) (days k : Z)
    (results1 results2 : list TopKResult) :
  range_ok env1 → range_ok env2 →
  dayList env1 days = dayList env2 days →
  0 ≤ k →
  @computeTopK S1 env1 tbl userID days k = Ok results1 →
  @computeTopK S2 env2 tbl userID days k = Ok results2 →
  (ListenCount <$> results1 = ListenCount <$> results2
   ∧ Rank <$> results1 = Rank <$> results2)
  ∧ ((∀ s1 s2, recorded tbl userID (dayList env1 days) s1 →
               recorded tbl userID (dayList env1 days) s2 →
               Int64.wrap (window_total tbl userID (dayList env1 days) s1)
               = Int64.wrap (window_total tbl userID (dayList env1 days) s2) →
               s1 = s2) →
     results1 = results2).
Proof.
  intros Hr1 Hr2 Hdays Hk Hrun1 Hrun2.
  pose proof (computeTopK_Ok_inv _ _ _ _ _ _ Hrun1) as Hok1.
  pose proof (computeTopK_Ok_inv _ _ _ _ _ _ Hrun2) as Hok2.
  rewrite (computeTopK_ok (S := S1)) in Hrun1 by done.
  rewrite (computeTopK_ok (S := S2)) in Hrun2 by done.
  pose proof (sorted_slice_perm (S := S1) tbl userID env1 days Hr1) as Hp1.
  pose proof (sorted_slice_perm (S := S2) tbl userID env2 days Hr2) as Hp2.
  pose proof (elem_of_sorted_slice (S := S1) tbl userID env1 days) as Hmem1.
  pose proof (elem_of_sorted_slice (S := S2) tbl userID env2 days) as Hmem2.
  pose proof (sorted_slice_descending (S := S1) tbl userID env1 days) as Hd1.
  pose proof (sorted_slice_descending (S := S2) tbl userID env2 days) as Hd2.
  rewrite <- Hdays in Hp2, Hmem2, Hd2, Hrun2.
  set (l1 := @sort_Slice S1 by_count_desc _) in *.
  set (l2 := @sort_Slice S2 by_count_desc _) in *.
  assert (Hperm : l1 ≡ₚ l2) by (by rewrite Hp1, Hp2).
  clearbody l1 l2. injection Hrun1 as <-. injection Hrun2 as <-.
  assert (Hcounts : count <$> l1 = count <$> l2).
  { apply (StronglySorted_unique_strong (λ a b : Z, b ≤ a)).
    - intros; lia.
    - by apply (StronglySorted_fmap _ (λ x y, count y ≤ count x)).
    - by apply (StronglySorted_fmap _ (λ x y, count y ≤ count x)).
    - by rewrite Hperm. }
  assert (Hlen : length l1 = length l2) by (by rewrite Hperm).
  split; [split|].
  - transitivity (take (Z.to_nat k) (count <$> l1)); [|rewrite Hcounts].
    + rewrite <- fmap_take. apply list_eq. intros i.
      rewrite !list_lookup_fmap, list_lookup_imap.
      by destruct (take (Z.to_nat k) l1 !! i).
    + rewrite <- fmap_take. apply list_eq. intros i.
      rewrite !list_lookup_fmap, list_lookup_imap.
      by destruct (take (Z.to_nat k) l2 !! i).
  - apply list_eq. intros i. rewrite !list_lookup_fmap, !list_lookup_imap.
    destruct (take (Z.to_nat k) l1 !! i) as [x1|] eqn:H1;
      destruct (take (Z.to_nat k) l2 !! i) as [x2|] eqn:H2; simpl; try done.
    + apply lookup_take_Some in H1 as [H1 Hlt]. apply lookup_lt_Some in H1.
      apply lookup_take_None in H2 as [H2%lookup_ge_None|H2]; lia.
    + apply lookup_take_Some in H2 as [H2 Hlt]. apply lookup_lt_Some in H2.
      apply lookup_take_None in H1 as [H1%lookup_ge_None|H1]; lia.
  - intros Hdistinct. f_equal. f_equal.
    apply (StronglySorted_unique_strong (λ x y, count y ≤ count x)); [|done..].
    intros x1 x2 Hx1 Hx2 Hle1 Hle2.
    apply Hmem1 in Hx1; [|done]. apply Hmem2 in Hx2; [|done].
    rewrite merged_lookup in Hx1, Hx2.
    destruct (decide (recorded tbl userID (dayList env1 days) (songID x1))); [|done].
    destruct (decide (recorded tbl userID (dayList env1 days) (songID x2))); [|done].
    destruct x1 as [s1 c1], x2 as [s2 c2]; simpl in *. simplify_eq.
    f_equal; [|lia]. apply Hdistinct; [done|done|lia].
Qed.
End determinism.

Section determinism_sample.
Import Api Api.Sample.

Lemma computeTopK_deterministic_up_to_ties_witness :
  let results1 := [{| SongID := "a"; ListenCount := 4; Rank := 1 |};
                   {| SongID := "b"; ListenCount := 4; Rank := 2 |}] in
  let results2 := [{| SongID := "b"; ListenCount := 4; Rank := 1 |};
                   {| SongID := "a"; ListenCount := 4; Rank := 2 |}] in
  @computeTopK insertion_sorter (env forwards) table_tie "u1" 1 2 = Ok results1
  ∧ @computeTopK insertion_sorter (env backwards) table_tie "u1" 1 2 = Ok results2
  ∧ ListenCount <$> results1 = ListenCount <$> results2
  ∧ Rank <$> results1 = Rank <$> results2.
Proof.
  intros results1 results2.
  assert (Hrun1 : @computeTopK insertion_sorter (env forwards) table_tie "u1" 1 2
                  = Ok results1) by (vm_compute; reflexivity).
  assert (Hrun2 : @computeTopK insertion_sorter (env backwards) table_tie "u1" 1 2
                  = Ok results2) by (vm_compute; reflexivity).
  split; [exact Hrun1|]. split; [exact Hrun2|].
  apply (computeTopK_deterministic_up_to_ties insertion_sorter insertion_sorter
           (SorterOk0 := insertion_sorter_ok) (SorterOk1 := insertion_sorter_ok)
           (env forwards) (env backwards) table_tie "u1" 1 2 results1 results2).
  - intros l. reflexivity.
  - intros l. symmetry. apply Permutation_rev.
  - reflexivity.
  - lia.
  - exact Hrun1.
  - exact Hrun2.
Defined.
End determinism_sample.


(** * Further properties of the code *)

(** ** The aggregator: flushing *)

(** X1: a flush that follows a flush does nothing: the first one leaves
    no pending delta and no message to commit, so the second returns
    before touching the counter table or the committed offsets. *)
Theorem flush_twice (env1 env2 : FlushEnv) (st : World * Aggregator) :
  flush env2 (flush env1 st) = flush env1 st.
Proof.
  destruct st as [w a].
  destruct (bool_decide (size (counts a) = 0%nat) && negb (hasMsg a)) eqn:Hret.
  - assert (Hall : ∀ env, flush env (w, a) = (w, a))
      by (intros env; unfold flush; by rewrite Hret).
    by rewrite !Hall.
  - assert (Hleft : counts (flush env1 (w, a)).2 = ∅
                    ∧ hasMsg (flush env1 (w, a)).2 = false)
      by (unfold flush; by rewrite Hret).
    destruct Hleft as [Hc Hm].
    destruct (flush env1 (w, a)) as [w' a']. simpl in Hc, Hm.
    unfold flush. by rewrite Hc, Hm, map_size_empty.
Qed.

Section flush_commit.
Context `{BloomHash}.

(** X2: the flush that follows an accumulated message commits the offset
    of that message only: when the commit succeeds the committed offset
    of the message's partition is the offset after it, and the committed
    offset of every other partition stays as it was, whatever was
    accumulated from that partition before. *)
Theorem flush_commits_last_partition_only (loc : GoTime.Location) (renv : RedisEnv)
    (fenv : FlushEnv) (st : World * Aggregator) (event : ListenEvent) (msg : Message) :
  let st' := flush fenv (accumulate loc renv st event msg) in
  (commit_fails fenv = false →
   committed st'.1 !! Partition msg = Some (Offset msg + 1))
  ∧ (∀ p, p ≠ Partition msg → committed st'.1 !! p = committed st.1 !! p).
Proof.
  intros st'. subst st'.
  destruct (accumulate_hasMsg loc renv st event msg) as [Hhas Hlast].
  destruct (accumulate_backends loc renv st event msg) as [_ Hk].
  destruct (accumulate loc renv st event msg) as [w a]; simpl in *.
  unfold flush. rewrite Hhas, andb_false_r. simpl. rewrite Hlast, Hk.
  unfold CommitMessages. split.
  - intros ->. by rewrite lookup_insert_eq.
  - intros p Hp. destruct (commit_fails fenv); [done|]. by rewrite lookup_insert_ne.
Qed.
End flush_commit.

(** ** The aggregator: nothing accumulated is lost *)

Section conservation.
Context `{BloomHash}.

Lemma total_fold_nonneg (m : gmap AggregateKey Z) :
  (∀ k v, m !! k = Some v → 0 ≤ v) →
  0 ≤ map_fold (λ (_ : AggregateKey) delta acc, delta + acc) 0 m.
Proof.
  induction m as [|k v m Hk Hfold IH] using map_first_key_ind; intros Hpos.
  - by rewrite map_fold_empty.
  - rewrite map_fold_insert_first_key by done.
    assert (0 ≤ v) by (apply (Hpos k); by rewrite lookup_insert_eq).
    assert (0 ≤ map_fold (λ (_ : AggregateKey) delta acc, delta + acc) 0 m).
    { apply IH. intros k' v' Hk'. apply (Hpos k').
      rewrite lookup_insert_ne; [done|]. intros ->. congruence. }
    lia.
Qed.

Lemma total_fold_insert (m : gmap AggregateKey Z) k v :
  map_fold (λ (_ : AggregateKey) delta acc, delta + acc) 0 (<[k := v]> m)
  = v + map_fold (λ (_ : AggregateKey) delta acc, delta + acc) 0 (delete k m).
Proof.
  rewrite <- insert_delete_eq.
  rewrite map_fold_insert_L; [done|intros; lia|apply lookup_delete_eq].
Qed.

Lemma total_fold_delete (m : gmap AggregateKey Z) k v :
  m !! k = Some v →
  map_fold (λ (_ : AggregateKey) delta acc, delta + acc) 0 m
  = v + map_fold (λ (_ : AggregateKey) delta acc, delta + acc) 0 (delete k m).
Proof.
  intros Hk. rewrite <- (insert_id m k v) at 1 by done. apply total_fold_insert.
Qed.

Lemma incr_total (m : gmap AggregateKey Z) k n :
  (∀ k v, m !! k = Some v → 0 < v) →
  map_fold (λ (_ : AggregateKey) delta acc, delta + acc) 0 m ≤ n → n < Int64.max_int →
  map_fold (λ (_ : AggregateKey) delta acc, delta + acc) 0 (incr k m)
  = map_fold (λ (_ : AggregateKey) delta acc, delta + acc) 0 m + 1
  ∧ (∀ k' v, incr k m !! k' = Some v → 0 < v).
Proof.
  intros Hpos Hle Hn. unfold incr.
  assert (Hrest : 0 ≤ map_fold (λ (_ : AggregateKey) delta acc, delta + acc) 0 (delete k m)).
  { apply total_fold_nonneg. intros k' v' [_ Hk']%lookup_delete_Some.
    specialize (Hpos k' v' Hk'). lia. }
  destruct (m !! k) as [v|] eqn:Hk; simpl.
  - pose proof (total_fold_delete m k v Hk) as Htot. specialize (Hpos k v Hk) as Hv.
    rewrite add_in_range by int64_lia. split.
    + rewrite total_fold_insert. lia.
    + intros k' v'. destruct (decide (k = k')) as [->|Hne].
      * rewrite lookup_insert_eq. intros [= <-]. lia.
      * rewrite lookup_insert_ne by done. apply Hpos.
  - rewrite add_in_range by int64_lia. split.
    + rewrite total_fold_insert, delete_id by done. lia.
    + intros k' v'. destruct (decide (k = k')) as [->|Hne].
      * rewrite lookup_insert_eq. intros [= <-]. lia.
      * rewrite lookup_insert_ne by done. apply Hpos.
Qed.

(** One delivery more: either the tally of skipped duplicates or the sum
    of the pending deltas grows by one. *)
Lemma accumulate_conserves loc env st event msg n :
  0 ≤ n → n < Int64.max_int →
  (∀ k v, counts st.2 !! k = Some v → 0 < v) →
  0 ≤ dedupCount st.2 →
  total_pending st.2 + dedupCount st.2 = n →
  (∀ k v, counts (accumulate loc env st event msg).2 !! k = Some v → 0 < v)
  ∧ 0 ≤ dedupCount (accumulate loc env st event msg).2
  ∧ total_pending (accumulate loc env st event msg).2
    + dedupCount (accumulate loc env st event msg).2 = n + 1.
Proof.
  intros Hn Hmax Hpos Hd Hsum. destruct st as [w a]. unfold total_pending in *.
  cbn [fst snd] in *.
  assert (Htot : 0 ≤ map_fold (λ (_ : AggregateKey) delta acc, delta + acc) 0 (counts a)).
  { apply total_fold_nonneg. intros k v Hk. specialize (Hpos k v Hk). lia. }
  destruct (incr_total (counts a) (event_key loc event) n Hpos) as [Hincr Hpos'];
    [lia|lia|].
  unfold accumulate.
  destruct (checkAndAddToBloom _ _ _ _) as [srv [[]|]]; cbn [fst snd counts dedupCount].
  - rewrite add_in_range by int64_lia. repeat split; [done|lia|lia].
  - repeat split; [done|lia|lia].
  - repeat split; [done|lia|lia].
Qed.

(** X3: every delivery handed to [accumulate] is accounted for: after a
    batch accumulated from the start state, whatever Redis did, the
    pending deltas summed over all keys plus the tally of skipped
    duplicates equal the number of deliveries. *)
Theorem every_delivery_counted_or_tallied (loc : GoTime.Location) (w : World)
    (batch : list (ListenEvent * Message * RedisEnv)) :
  Z.of_nat (length batch) ≤ Int64.max_int →
  let a := (accumulate_all loc (w, new_Aggregator) batch).2 in
  total_pending a + dedupCount a = Z.of_nat (length batch).
Proof.
  intros Hlen a. subst a.
  assert (Hgen : ∀ batch st n,
            0 ≤ n → n + Z.of_nat (length batch) ≤ Int64.max_int →
            (∀ k v, counts st.2 !! k = Some v → 0 < v) →
            0 ≤ dedupCount st.2 →
            total_pending st.2 + dedupCount st.2 = n →
            total_pending (accumulate_all loc st batch).2
            + dedupCount (accumulate_all loc st batch).2 = n + Z.of_nat (length batch)).
  { clear. induction batch as [|[[e m] env] batch IH]; intros st n Hn Hmax Hpos Hd Hsum.
    - simpl. lia.
    - rewrite accumulate_all_cons, length_cons, Nat2Z.inj_succ in *.
      destruct (accumulate_conserves loc env st e m n) as (Hpos' & Hd' & Hsum');
        [lia|lia|done|done|done|].
      rewrite (IH _ (n + 1)); [lia|lia|lia|done|done|done]. }
  rewrite (Hgen batch (w, new_Aggregator) 0); [lia|lia|lia| |done|].
  - intros k v Hk. simpl in Hk. by rewrite lookup_empty in Hk.
  - unfold total_pending. simpl. by rewrite map_fold_empty.
Qed.
End conservation.

(** ** The aggregator: the lifetime and the scope of the day filters *)

Lemma bloomKey_inj : Inj (=) (=) bloomKey.
Proof. intros d1 d2 Heq. unfold bloomKey in Heq. by simplify_eq/=. Qed.

Section filters.
Context `{BloomHash}.

Lemma ensureBloomFilter_ttl env srv day key t :
  ttl_at srv key = Some t → ttl_at (ensureBloomFilter env srv day).1 key = Some t.
Proof.
  unfold ttl_at, ensureBloomFilter, do_RESERVE, RedisBloom.RESERVE. intros Ht.
  destruct (reserve_reachable env); [|done].
  destruct (srv !! bloomKey day) as [f|] eqn:Hf; simpl; [done|].
  unfold RedisBloom.EXPIRE. rewrite lookup_alter.
  case_decide as Hk; [|by rewrite lookup_insert_ne].
  subst key. by rewrite Hf in Ht.
Qed.

Lemma checkAndAddToBloom_ttl env srv day eventID key t :
  ttl_at srv key = Some t →
  ttl_at (checkAndAddToBloom env srv day eventID).1 key = Some t.
Proof.
  intros Ht. unfold checkAndAddToBloom, do_ADD.
  pose proof (ensureBloomFilter_ttl env srv day key t Ht) as Hens.
  destruct (ensureBloomFilter env srv day) as [srv1 r1]; simpl in Hens.
  assert (Hadd : ttl_at (RedisBloom.ADD srv1 (bloomKey day) eventID).1 key = Some t).
  { unfold RedisBloom.ADD, ttl_at in *; simpl.
    destruct (decide (bloomKey day = key)) as [<-|Hne].
    - rewrite lookup_insert_eq. simpl.
      destruct (srv1 !! bloomKey day); [done|discriminate].
    - by rewrite lookup_insert_ne. }
  destruct (add_reachable env); [|done].
  destruct (RedisBloom.ADD srv1 (bloomKey day) eventID) as [srv2 added]; simpl in Hadd.
  by destruct (add_wire env), added.
Qed.

(** X4: the TTL of a day's filter is fixed when the filter comes into
    being: no turn of the consumer (message accumulated or skipped,
    malformed message, flush) changes the TTL of a filter that exists, be
    it eight days or none at all. *)
Theorem existing_filter_keeps_ttl `{JsonDecoder} (loc : GoTime.Location)
    (steps : list Step) (st : World * Aggregator) (key : string) (t : option Z) :
  ttl_at (redis st.1) key = Some t →
  ttl_at (redis (run loc st steps).1) key = Some t.
Proof.
  revert st. induction steps as [|s steps IH]; intros st Ht; [done|].
  change (run loc st (s :: steps)) with (run loc (step loc st s) steps).
  apply IH. destruct s as [msg env cf|env]; simpl.
  - destruct (json_Unmarshal (Value msg)) as [event|e].
    + rewrite accumulate_redis. by apply checkAndAddToBloom_ttl.
    + by destruct st.
  - destruct st as [w a]. unfold flush. by destruct (_ && _).
Qed.


Lemma checkAndAddToBloom_bits_other env srv day eventID key :
  key ≠ bloomKey day →
  bits_at (checkAndAddToBloom env srv day eventID).1 key = bits_at srv key.
Proof.
  intros Hne. unfold checkAndAddToBloom, do_ADD.
  pose proof (ensureBloomFilter_bits env srv day key) as Hens.
  destruct (ensureBloomFilter env srv day) as [srv1 r1]; simpl in Hens.
  pose proof (ADD_bits srv1 (bloomKey day) eventID key) as Hadd.
  rewrite decide_False in Hadd by done.
  destruct (add_reachable env); [|done].
  destruct (RedisBloom.ADD srv1 (bloomKey day) eventID) as [srv2 added]; simpl in Hadd.
  assert (bits_at srv2 key = bits_at srv key) by congruence.
  by destruct (add_wire env), added.
Qed.

(** X6: the filters are scoped by day: accumulating an event, whatever
    Redis does, leaves the verdict of every other day's filter on every
    event id as it was. An id is only ever matched against ids of its
    own day. *)
Theorem other_days_unaffected (loc : GoTime.Location) (env : RedisEnv)
    (st : World * Aggregator) (event : ListenEvent) (msg : Message)
    (day eventID : string) :
  day ≠ event_day loc event →
  seen (redis (accumulate loc env st event msg).1) day eventID
  = seen (redis st.1) day eventID.
Proof.
  intros Hday. rewrite accumulate_redis. unfold seen.
  rewrite checkAndAddToBloom_bits_other; [done|].
  intros Heq. by apply bloomKey_inj in Heq.
Qed.

End filters.

(** ** The aggregator before deduplication *)

(** X8: without the dedup check every delivery is counted: after a batch
    accumulated from the start state, the delta pending for a key is the
    number of deliveries that carry the key, redeliveries included. *)
Theorem v1_counts_every_delivery (loc : GoTime.Location)
    (batch : list (ListenEvent * Message)) (key : AggregateKey) :
  Z.of_nat (length batch) ≤ Int64.max_int →
  default 0 (AggregatorV1.counts
               (AggregatorV1.accumulate_all loc AggregatorV1.new_Aggregator batch) !! key)
  = Z.of_nat (length (filter (λ d, event_key loc d.1 = key) batch)).
Proof.
  intros Hlen.
  assert (Hgen : ∀ batch a n,
            0 ≤ default 0 (AggregatorV1.counts a !! key) ≤ n →
            n + Z.of_nat (length batch) ≤ Int64.max_int →
            default 0 (AggregatorV1.counts (AggregatorV1.accumulate_all loc a batch) !! key)
            = default 0 (AggregatorV1.counts a !! key)
              + Z.of_nat (length (filter (λ d, event_key loc d.1 = key) batch))).
  { clear. induction batch as [|[e m] batch IH]; intros a n Ha Hmax.
    - simpl. lia.
    - change (AggregatorV1.accumulate_all loc a ((e, m) :: batch))
        with (AggregatorV1.accumulate_all loc (AggregatorV1.accumulate loc a e m) batch).
      rewrite length_cons, Nat2Z.inj_succ in Hmax.
      assert (Hstep : default 0 (AggregatorV1.counts (AggregatorV1.accumulate loc a e m) !! key)
                      = default 0 (AggregatorV1.counts a !! key)
                        + (if decide (event_key loc e = key) then 1 else 0)).
      { unfold AggregatorV1.accumulate; simpl. rewrite incr_lookup.
        case_decide; [|lia]. rewrite add_in_range; [done|int64_lia]. }
      rewrite (IH _ (n + 1)); [|case_decide; lia|lia].
      rewrite Hstep, filter_cons. simpl. case_decide; simpl; lia. }
  rewrite (Hgen batch AggregatorV1.new_Aggregator 0); simpl; rewrite ?lookup_empty; simpl; lia.
Qed.
(** ** Decimal text: [%d] and [strconv.Atoi] *)

Section decimal.
Import GoStrings.

Lemma parse_digits_step (acc d : Z) (c : ascii) (s : string) :
  digit_of c = Some d → parse_digits acc (String c s) = parse_digits (10 * acc + d) s.
Proof. intros Hd. simpl. by rewrite Hd. Qed.

Lemma parse_digits_pos (d : Decimal.uint) (acc : positive) :
  parse_digits (Z.pos acc) (NilEmpty.string_of_uint d) = Some (Z.pos (Pos.of_uint_acc d acc)).
Proof.
  revert acc. induction d as [|d IH|d IH|d IH|d IH|d IH|d IH|d IH|d IH|d IH|d IH];
    intros acc; [done|..];
    cbn [NilEmpty.string_of_uint Pos.of_uint_acc];
    (erewrite parse_digits_step by reflexivity); rewrite <- IH; f_equal;
    match goal with
    | |- context [Z.of_nat (nat_of_ascii ?c)] =>
        let v := eval vm_compute in (Z.of_nat (nat_of_ascii c)) in
        change (Z.of_nat (nat_of_ascii c)) with v
    end; lia.
Qed.

Lemma parse_digits_uint (d : Decimal.uint) :
  parse_digits 0 (NilEmpty.string_of_uint d) = Some (Z.of_N (Pos.of_uint d)).
Proof.
  induction d as [|d IH|d IH|d IH|d IH|d IH|d IH|d IH|d IH|d IH|d IH];
    [done|apply IH|..]; apply (parse_digits_pos d).
Qed.

Lemma count_byte_app (c : ascii) (s t : string) :
  count_byte c (s +:+ t) = (count_byte c s + count_byte c t)%nat.
Proof. induction s as [|a s IH]; simpl; [done|]. rewrite IH. lia. Qed.

Lemma string_of_uint_digits (c : ascii) (d : Decimal.uint) :
  digit_of c = None → count_byte c (NilEmpty.string_of_uint d) = 0%nat.
Proof.
  intros Hc. induction d as [|d IH|d IH|d IH|d IH|d IH|d IH|d IH|d IH|d IH|d IH];
    [done|..]; cbn [NilEmpty.string_of_uint count_byte]; rewrite IH;
    match goal with
    | |- context [Ascii.eqb ?a c] =>
        destruct (Ascii.eqb_spec a c) as [<-|]; [discriminate Hc|done]
    end.
Qed.

Lemma to_uint_string (p : positive) :
  NilZero.string_of_uint (Pos.to_uint p) = NilEmpty.string_of_uint (Pos.to_uint p).
Proof.
  pose proof (DecimalPos.Unsigned.to_uint_nonnil p). by destruct (Pos.to_uint p).
Qed.

(** The text [%d] prints holds digits and at most a leading minus sign. *)
Lemma itoa_count_byte (c : ascii) (z : Z) :
  digit_of c = None → c ≠ "-"%char → count_byte c (itoa z) = 0%nat.
Proof.
  intros Hc Hm. unfold itoa.
  destruct z as [|p|p]; cbn [Z.to_int NilZero.string_of_int].
  - change (count_byte c "0" = 0%nat). cbn [count_byte].
    destruct (Ascii.eqb_spec "0" c) as [<-|]; [discriminate Hc|done].
  - rewrite to_uint_string. by apply string_of_uint_digits.
  - cbn [count_byte]. rewrite to_uint_string, string_of_uint_digits by done.
    by destruct (Ascii.eqb_spec "-" c) as [<-|].
Qed.

Lemma to_int_nonnil (z : Z) : Z.to_int z ≠ Decimal.Pos Decimal.Nil ∧ Z.to_int z ≠ Decimal.Neg Decimal.Nil.
Proof.
  destruct z as [|p|p]; simpl; split; try discriminate;
    intros [= Hp]; by apply (DecimalPos.Unsigned.to_uint_nonnil p).
Qed.

Lemma itoa_inj (z1 z2 : Z) : itoa z1 = itoa z2 → z1 = z2.
Proof.
  unfold itoa. intros Heq. apply DecimalZ.to_int_inj.
  destruct (to_int_nonnil z1), (to_int_nonnil z2).
  assert (Some (Z.to_int z1) = Some (Z.to_int z2)) as [=]; [|done].
  rewrite <- !NilZero.isi by done. by rewrite Heq.
Qed.

Lemma unsigned_to_uint (p : positive) :
  parse_digits 0 (NilEmpty.string_of_uint (Pos.to_uint p)) = Some (Z.pos p).
Proof. by rewrite parse_digits_uint, DecimalPos.Unsigned.of_to. Qed.

Lemma to_uint_nonempty (p : positive) :
  ∃ c s, NilEmpty.string_of_uint (Pos.to_uint p) = String c s
         ∧ c ≠ "-"%char ∧ c ≠ "+"%char.
Proof.
  pose proof (DecimalPos.Unsigned.to_uint_nonnil p).
  destruct (Pos.to_uint p); [done|..]; simpl; eexists _, _; (split; [done|by split]).
Qed.

Lemma Atoi_unsigned (c : ascii) (s : string) :
  c ≠ "-"%char → c ≠ "+"%char →
  Atoi (String c s) =
    match parse_digits 0 (String c s) with
    | None => Err "invalid syntax"
    | Some n =>
        if (Int64.min_int <=? n) && (n <=? Int64.max_int) then Ok n
        else Err "value out of range"
    end.
Proof.
  intros Hm Hp. unfold Atoi.
  destruct c as [[] [] [] [] [] [] [] []]; try reflexivity; by destruct Hm || by destruct Hp.
Qed.

Lemma Atoi_itoa (z : Z) : Int64.in_range z → Atoi (itoa z) = Ok z.
Proof.
  intros [Hlo Hhi]. unfold itoa.
  destruct z as [|p|p]; cbn [Z.to_int NilZero.string_of_int].
  - done.
  - rewrite to_uint_string.
    destruct (to_uint_nonempty p) as (c & s & Hs & Hm & Hp).
    pose proof (unsigned_to_uint p) as Hparse. rewrite Hs in *.
    rewrite Atoi_unsigned, Hparse by done.
    destruct (Z.leb_spec Int64.min_int (Z.pos p)); [|lia].
    destruct (Z.leb_spec (Z.pos p) Int64.max_int); [done|lia].
  - rewrite to_uint_string.
    destruct (to_uint_nonempty p) as (c & s & Hs & _).
    pose proof (unsigned_to_uint p) as Hparse. rewrite Hs in *.
    unfold Atoi. rewrite Hparse.
    change (- Z.pos p) with (Z.neg p).
    destruct (Z.leb_spec Int64.min_int (Z.neg p)); [|lia].
    destruct (Z.leb_spec (Z.neg p) Int64.max_int); [done|lia].
Qed.
End decimal.
(** ** Paths and cache keys *)

Section paths.
Import GoStrings.

Lemma append_cons (a : ascii) (s t : string) : String a s +:+ t = String a (s +:+ t).
Proof. reflexivity. Qed.

Lemma append_assoc (s t r : string) : (s +:+ t) +:+ r = s +:+ (t +:+ r).
Proof. induction s as [|a s IH]; [done|]. by rewrite !append_cons, IH. Qed.

Lemma append_nil_r (s : string) : s +:+ "" = s.
Proof. induction s as [|a s IH]; [done|]. by rewrite append_cons, IH. Qed.

Lemma count_byte_cons_same (c : ascii) (s : string) :
  count_byte c (String c s) = S (count_byte c s).
Proof. simpl. by rewrite Ascii.eqb_refl. Qed.

(** A text is cut at its last occurrence of a byte in one way only. *)
Lemma append_last_byte_inj (c : ascii) (s1 s2 t1 t2 : string) :
  count_byte c t1 = 0%nat → count_byte c t2 = 0%nat →
  s1 +:+ String c t1 = s2 +:+ String c t2 → s1 = s2 ∧ t1 = t2.
Proof.
  intros H1 H2. revert s2.
  induction s1 as [|a s1 IH]; intros [|b s2] Heq;
    rewrite ?append_cons in Heq; change ("" +:+ ?s) with s in Heq.
  - by injection Heq as ->.
  - injection Heq as <- ->.
    rewrite count_byte_app, count_byte_cons_same in H1. lia.
  - injection Heq as -> <-.
    rewrite count_byte_app, count_byte_cons_same in H2. lia.
  - injection Heq as -> Heq. destruct (IH _ Heq) as [-> ->]. done.
Qed.

Lemma rev_app_append (s t : string) : String.rev_app s t = String.rev s +:+ t.
Proof.
  unfold String.rev. revert t.
  induction s as [|a s IH]; intros t; cbn [String.rev_app]; [done|].
  rewrite (IH (String a t)), (IH (String a "")). by rewrite append_assoc.
Qed.

Lemma rev_cons_append (a : ascii) (cur s : string) :
  String.rev (String a cur) +:+ s = String.rev cur +:+ String a s.
Proof.
  unfold String.rev at 1. cbn [String.rev_app].
  by rewrite rev_app_append, append_assoc.
Qed.

Lemma strip_prefix_app (p s : string) : strip_prefix p (p +:+ s) = Some s.
Proof.
  induction p as [|a p IH]; [done|].
  rewrite append_cons. cbn [strip_prefix]. by rewrite Ascii.eqb_refl.
Qed.

Lemma TrimPrefix_app (p s : string) : TrimPrefix (p +:+ s) p = s.
Proof. unfold TrimPrefix. by rewrite strip_prefix_app. Qed.

Lemma split_on_free (sep : ascii) (cur s : string) :
  count_byte sep s = 0%nat → split_on sep cur s = [String.rev cur +:+ s].
Proof.
  revert cur. induction s as [|a s IH]; intros cur Hs; cbn [split_on].
  - by rewrite append_nil_r.
  - cbn [count_byte] in Hs. destruct (Ascii.eqb a sep); [lia|].
    rewrite IH by lia. by rewrite rev_cons_append.
Qed.

Lemma split_on_app (sep : ascii) (cur u rest : string) :
  count_byte sep u = 0%nat →
  split_on sep cur (u +:+ String sep rest)
    = (String.rev cur +:+ u) :: split_on sep "" rest.
Proof.
  revert cur. induction u as [|a u IH]; intros cur Hu;
    rewrite ?append_cons; change ("" +:+ ?s) with s; cbn [split_on].
  - by rewrite Ascii.eqb_refl, append_nil_r.
  - cbn [count_byte] in Hu. destruct (Ascii.eqb a sep); [lia|].
    rewrite IH by lia. by rewrite rev_cons_append.
Qed.

Lemma length_split_on (sep : ascii) (cur s : string) :
  length (split_on sep cur s) = S (count_byte sep s).
Proof.
  revert cur. induction s as [|a s IH]; intros cur; cbn [split_on count_byte]; [done|].
  destruct (Ascii.eqb a sep); cbn [length]; rewrite IH; lia.
Qed.

(** X9: the user id of a request is the path segment between /users/
    and /topk only when that segment holds no slash: then the path
    splits into the id and the word topk; an id with a slash splits
    into three or more parts, which the handler rejects as an invalid
    path. *)
Theorem path_splits_into_user_id (u : string) :
  let parts := Split (TrimPrefix ("/users/" +:+ u +:+ "/topk") "/users/") "/" in
  (count_byte "/" u = 0%nat → parts = [u; "topk"%string])
  ∧ (count_byte "/" u ≠ 0%nat → (2 < length parts)%nat).
Proof.
  cbv zeta. rewrite TrimPrefix_app. unfold Split. split; intros Hu.
  - change (u +:+ "/topk") with (u +:+ String "/" "topk").
    by rewrite split_on_app.
  - rewrite length_split_on, count_byte_app.
    change (count_byte "/" "/topk") with 1%nat. lia.
Qed.

Lemma path_splits_into_user_id_witness :
  Split (TrimPrefix ("/users/" +:+ "u1" +:+ "/topk") "/users/") "/" = ["u1"; "topk"]%string
  ∧ (2 < length (Split (TrimPrefix ("/users/" +:+ "a/b" +:+ "/topk") "/users/") "/"))%nat.
Proof.
  split.
  - apply (path_splits_into_user_id "u1"). reflexivity.
  - apply (path_splits_into_user_id "a/b"). discriminate.
Defined.

(** X10: the cache key determines the user id, the number of days and
    [k]: two requests share a cache entry only when all three agree,
    whatever bytes the user id holds. *)
Theorem cacheKey_inj (u1 u2 : string) (d1 d2 k1 k2 : Z) :
  Api.cacheKey u1 d1 k1 = Api.cacheKey u2 d2 k2 → u1 = u2 ∧ d1 = d2 ∧ k1 = k2.
Proof.
  unfold Api.cacheKey. intros Heq.
  apply (f_equal (λ s, TrimPrefix s "topk:")) in Heq.
  rewrite !TrimPrefix_app in Heq.
  change (?u +:+ ":" +:+ ?d +:+ ":" +:+ ?k)
    with (u +:+ (String ":" "" +:+ d) +:+ String ":" k) in Heq.
  rewrite <- !append_assoc in Heq.
  apply append_last_byte_inj in Heq as [Heq Hk]; [|by apply itoa_count_byte..].
  rewrite !append_assoc in Heq.
  apply append_last_byte_inj in Heq as [Hu Hd]; [|by apply itoa_count_byte..].
  by rewrite (itoa_inj _ _ Hd), (itoa_inj _ _ Hk).
Qed.

Lemma cacheKey_inj_witness :
  "u1"%string = "u1"%string ∧ 7 = 7 ∧ 10 = 10.
Proof. apply (cacheKey_inj "u1" "u1" 7 7 10 10). reflexivity. Defined.
End paths.
(** ** The read endpoint: what a request reads and writes *)

Section handler_frame.
Import Api.
Context `{Sorter} `{JsonEncoder}.

(** X11: a request answered from the cache does not look at the store:
    with the same cache, clock and Redis reachability it gets the same
    answer whatever the counter table holds and whether or not Cassandra
    answers, and it leaves the backend as it found it. *)
Theorem cache_hit_ignores_store (cacheTTL : Z) (env env' : Env) (b b' : Backend)
    (r : Request) :
  Header (topKHandler cacheTTL env b r).2 = json_headers "HIT" →
  cache b' = cache b → now env' = now env →
  cache_reachable env' = cache_reachable env →
  topKHandler cacheTTL env' b' r = (b', (topKHandler cacheTTL env b r).2).
Proof.
  intros Hhit Hc Hn Hr. revert Hhit.
  assert (Hget : ∀ key, redis_Get env' (cache b') key = redis_Get env (cache b) key).
  { intros key. unfold redis_Get. by rewrite Hc, Hn, Hr. }
  unfold topKHandler.
  destruct (negb (String.eqb (Method r) "GET")); [discriminate|].
  destruct (GoStrings.Split _ _) as [|u [|tail [|x rest]]]; try discriminate.
  destruct (negb (String.eqb tail "topk")); [discriminate|].
  destruct (_ || _); [discriminate|]. destruct (_ || _); [discriminate|].
  rewrite Hget. destruct (redis_Get env _ _) as [hit|miss]; [done|].
  destruct (computeTopK env _ _ _ _) as [results|]; [|discriminate].
  destruct (json_Marshal _); discriminate.
Qed.

(** X12: an entry written by a miss is not served once its TTL has
    run out: a request arriving [cacheTTL] seconds or more after the
    miss is not a cache hit. *)
Theorem cache_entry_expires (cacheTTL : Z) (env1 env2 : Env) (b : Backend)
    (r : Request) :
  0 < cacheTTL → cache_reachable env1 = true →
  now env1 + cacheTTL ≤ now env2 →
  Header (topKHandler cacheTTL env1 b r).2 = json_headers "MISS" →
  Header (topKHandler cacheTTL env2 (topKHandler cacheTTL env1 b r).1 r).2
    ≠ json_headers "HIT".
Proof.
  intros Httl Hup1 Hnow. unfold topKHandler.
  destruct (negb (String.eqb (Method r) "GET")); [discriminate|].
  destruct (GoStrings.Split _ _) as [|u [|tail [|x rest]]]; try discriminate.
  destruct (negb (String.eqb tail "topk")); [discriminate|].
  destruct (_ || _); [discriminate|]. destruct (_ || _); [discriminate|].
  destruct (redis_Get env1 _ _) as [hit|miss]; [discriminate|].
  destruct (computeTopK env1 _ _ _ _) as [results|]; [|discriminate].
  destruct (json_Marshal _) as [jsonData|]; [|discriminate].
  intros _. cbn [fst snd cache table].
  assert (Hgone : ∀ msg,
            redis_Get env2
              (redis_Set env1 (cache b)
                 (cacheKey u (getQueryInt r "days" 7) (getQueryInt r "k" 10))
                 jsonData cacheTTL)
              (cacheKey u (getQueryInt r "days" 7) (getQueryInt r "k" 10))
            ≠ Ok msg).
  { intros msg. unfold redis_Get, redis_Set. rewrite Hup1, lookup_insert_eq.
    destruct (cache_reachable env2); [|discriminate].
    destruct (Z.ltb_spec 0 cacheTTL); [|lia].
    destruct (Z.ltb_spec (now env2) (now env1 + cacheTTL)); [lia|discriminate]. }
  destruct (redis_Get env2 _ _) as [hit|miss']; [by destruct (Hgone hit)|].
  destruct (computeTopK env2 _ _ _ _) as [results2|]; [|discriminate].
  destruct (json_Marshal _); discriminate.
Qed.


End handler_frame.

Section handler_frame_sample.
Import Api Api.Sample.
Local Existing Instance insertion_sorter.
Local Existing Instance go_json.

Lemma cache_hit_ignores_store_witness :
  topKHandler 3600 (later 10 (env backwards))
    {| cache := cache (topKHandler 3600 (env forwards) (cold tableA)
                         (get "/users/u1/topk" [("days", "2"); ("k", "2")]%string)).1;
       table := table_tie |}
    (get "/users/u1/topk" [("days", "2"); ("k", "2")]%string)
  = ({| cache := cache (topKHandler 3600 (env forwards) (cold tableA)
                         (get "/users/u1/topk" [("days", "2"); ("k", "2")]%string)).1;
        table := table_tie |},
     (topKHandler 3600 (later 10 (env forwards))
        (topKHandler 3600 (env forwards) (cold tableA)
           (get "/users/u1/topk" [("days", "2"); ("k", "2")]%string)).1
        (get "/users/u1/topk" [("days", "2"); ("k", "2")]%string)).2).
Proof.
  apply (cache_hit_ignores_store 3600 (later 10 (env forwards)) (later 10 (env backwards))).
  - vm_compute. reflexivity.
  - reflexivity.
  - reflexivity.
  - reflexivity.
Defined.

Lemma cache_entry_expires_witness :
  Header (topKHandler 3600 (later 3600 (env forwards))
            (topKHandler 3600 (env forwards) (cold tableA)
               (get "/users/u1/topk" [("days", "2"); ("k", "2")]%string)).1
            (get "/users/u1/topk" [("days", "2"); ("k", "2")]%string)).2
  ≠ json_headers "HIT".
Proof.
  apply (cache_entry_expires 3600 (env forwards) (later 3600 (env forwards)) (cold tableA)
           (get "/users/u1/topk" [("days", "2"); ("k", "2")]%string)).
  - reflexivity.
  - reflexivity.
  - vm_compute. discriminate.
  - vm_compute. reflexivity.
Defined.
End handler_frame_sample.
(** ** The read endpoint: what the computation depends on *)

Section compute_facts.
Import Api.

Lemma scan_days_Err_iff env tbl userID days (m : gmap string Z) :
  (∃ msg, scan_days env tbl userID days m = Err msg)
  ↔ ∃ day, day ∈ days ∧ query_fails env day = true.
Proof.
  revert m. induction days as [|d days IH]; intros m; cbn [scan_days].
  - split; [by intros [? ?]|]. intros (day & Hin & _). by apply elem_of_nil in Hin.
  - destruct (query_fails env d) eqn:Hd.
    + split; [|by eexists]. intros _. exists d. split; [left|done].
    + rewrite IH. split; intros (day & Hin & Hf).
      * exists day. split; [by right|done].
      * exists day. split; [|done].
        apply elem_of_cons in Hin as [->|Hin]; [congruence|done].
Qed.

(** X14: the computation fails exactly when the query of some day of
    the window fails: one failing day is enough, and no partial ranking
    is returned. *)
Theorem computeTopK_fails_iff_a_day_fails `{Sorter} (env : Env)
    (tbl : gmap (string * string * string) Z) (userID : string) (days k : Z) :
  (∃ msg, computeTopK env tbl userID days k = Err msg)
  ↔ ∃ day, day ∈ dayList env days ∧ query_fails env day = true.
Proof.
  rewrite <- (scan_days_Err_iff env tbl userID (dayList env days) ∅).
  unfold computeTopK. destruct (scan_days _ _ _ _ _) as [m|msg].
  - split; intros [? ?]; discriminate.
  - split; intros _; by eexists.
Qed.

Lemma scan_days_agree env tbl1 tbl2 userID days (m : gmap string Z) :
  (∀ day s, day ∈ days → tbl1 !! (userID, day, s) = tbl2 !! (userID, day, s)) →
  scan_days env tbl1 userID days m = scan_days env tbl2 userID days m.
Proof.
  revert m. induction days as [|d days IH]; intros m Hagree; cbn [scan_days]; [done|].
  destruct (query_fails env d); [done|].
  assert (scan_rows (select_day tbl1 userID d) m = scan_rows (select_day tbl2 userID d) m)
    as ->.
  { apply map_eq. intros s. rewrite !scan_day_lookup, Hagree; [done|left]. }
  apply IH. intros day s Hin. apply Hagree. by right.
Qed.

(** X15: the answer for a user depends only on that user's rows for
    the days of the window: rows of other users and of other days
    never change it. *)
Theorem computeTopK_reads_own_window_only `{Sorter} (env : Env)
    (tbl1 tbl2 : gmap (string * string * string) Z) (userID : string) (days k : Z) :
  (∀ day s, day ∈ dayList env days →
            tbl1 !! (userID, day, s) = tbl2 !! (userID, day, s)) →
  computeTopK env tbl1 userID days k = computeTopK env tbl2 userID days k.
Proof.
  intros Hagree. unfold computeTopK. by rewrite (scan_days_agree env tbl1 tbl2).
Qed.


(** X17: a parameter written in decimal, as [%d] prints an [int], is
    read back as that number, whatever the default. *)
Theorem getQueryInt_reads_decimal (r : Request) (key : string) (defaultVal z : Z) :
  Int64.in_range z →
  Values_Get (Query r) key = GoStrings.itoa z →
  getQueryInt r key defaultVal = z.
Proof.
  intros Hz Hval. pose proof (Atoi_itoa z Hz) as Hatoi.
  unfold getQueryInt. rewrite Hval, Hatoi.
  destruct (String.eqb_spec (GoStrings.itoa z) "") as [Hnil|]; [|done].
  by rewrite Hnil in Hatoi.
Qed.
End compute_facts.

Section compute_sample.
Import Api Api.Sample.
Local Existing Instance insertion_sorter.

Lemma computeTopK_fails_iff_a_day_fails_witness :
  ∃ msg,
    computeTopK {| now := 1769731300; cache_reachable := true;
                   query_fails := String.eqb "2026-01-29"; range_order := forwards |}
      tableA "u1" 2 2 = Err msg.
Proof.
  apply (computeTopK_fails_iff_a_day_fails
           {| now := 1769731300; cache_reachable := true;
              query_fails := String.eqb "2026-01-29"; range_order := forwards |}
           tableA "u1" 2 2).
  exists "2026-01-29"%string. split; [|reflexivity].
  vm_compute. right. left.
Defined.

Lemma computeTopK_reads_own_window_only_witness :
  computeTopK (env forwards) tableA "u2" 2 2 = computeTopK (env forwards) table_tie "u2" 2 2.
Proof.
  apply (computeTopK_reads_own_window_only (env forwards) tableA table_tie "u2" 2 2).
  intros day s _. transitivity (@None Z).
  - destruct (tableA !! _) eqn:Hrow; [|done].
    apply elem_of_list_to_map_2 in Hrow. set_solver.
  - symmetry. destruct (table_tie !! _) eqn:Hrow; [|done].
    apply elem_of_list_to_map_2 in Hrow. set_solver.
Defined.



Lemma getQueryInt_reads_decimal_witness :
  getQueryInt (get "/users/u1/topk" [("days", "-3")]%string) "days" 7 = -3.
Proof.
  apply (getQueryInt_reads_decimal (get "/users/u1/topk" [("days", "-3")]%string)
           "days" 7 (-3)).
  - split; vm_compute; discriminate.
  - reflexivity.
Defined.
End compute_sample.
(** ** The crawl worker *)

Section crawl_ids.
Import GoStrings CrawlWorker.

Lemma append_inv_head (s t1 t2 : string) : s +:+ t1 = s +:+ t2 → t1 = t2.
Proof.
  induction s as [|a s IH]; [done|]. rewrite !append_cons. intros [= Heq]. by apply IH.
Qed.

Lemma itoa_nonneg_no_minus (z : Z) : 0 ≤ z → count_byte "-" (itoa z) = 0%nat.
Proof.
  intros Hz. unfold itoa. destruct z as [|p|p]; [done| |lia].
  cbn [Z.to_int NilZero.string_of_int]. rewrite to_uint_string.
  by apply string_of_uint_digits.
Qed.

Local Abbreviation crawl_id userID provider now i :=
  (userID +:+ "-" +:+ provider +:+ "-" +:+ itoa now +:+ "-" +:+ itoa i) (only parsing).

Lemma crawl_id_inj (userID provider : string) (now1 now2 i1 i2 : Z) :
  0 ≤ i1 → 0 ≤ i2 →
  crawl_id userID provider now1 i1 = crawl_id userID provider now2 i2 →
  now1 = now2 ∧ i1 = i2.
Proof.
  intros H1 H2 Heq.
  do 4 apply append_inv_head in Heq.
  change (?n +:+ "-" +:+ ?i) with (n +:+ String "-" i) in Heq.
  apply append_last_byte_inj in Heq as [Hn Hi]; [|by apply itoa_nonneg_no_minus..].
  by rewrite (itoa_inj _ _ Hn), (itoa_inj _ _ Hi).
Qed.

Lemma elem_of_fetchListenHistory now userID provider since (e : ListenEvent) :
  e ∈ fetchListenHistory now userID provider since →
  ∃ i, 0 ≤ i < 10 ∧ EventID e = crawl_id userID provider now i
       ∧ UserID e = userID ∧ Provider e = provider
       ∧ ListenedAt e = Int64.add since (i * 3600).
Proof.
  unfold fetchListenHistory. intros (i & -> & Hi)%list_elem_of_fmap.
  apply elem_of_seqZ in Hi. exists i. by repeat split; try lia.
Qed.

(** X18: the ten events of one crawl carry ten different event ids. *)
Theorem fetchListenHistory_ids_distinct (now : Z) (userID provider : string) (since : Z) :
  NoDup (EventID <$> fetchListenHistory now userID provider since)
  ∧ length (fetchListenHistory now userID provider since) = 10%nat.
Proof.
  split; [|done]. unfold fetchListenHistory. rewrite <- list_fmap_compose.
  apply NoDup_fmap_2_strong; [|apply NoDup_seqZ].
  intros i j Hi%elem_of_seqZ Hj%elem_of_seqZ Heq. cbn in Heq.
  by apply (crawl_id_inj userID provider now now i j) in Heq as [_ ?]; try lia.
Qed.

(** X19: crawls of the same user and provider that read the clock at
    different seconds share no event id, whatever period they fetch: a
    crawl that is run again publishes its listens under new ids. *)
Theorem fetchListenHistory_ids_fresh_per_second (now1 now2 : Z)
    (userID provider : string) (since1 since2 : Z) (e1 e2 : ListenEvent) :
  now1 ≠ now2 →
  e1 ∈ fetchListenHistory now1 userID provider since1 →
  e2 ∈ fetchListenHistory now2 userID provider since2 →
  EventID e1 ≠ EventID e2.
Proof.
  intros Hnow (i & Hi & Hid1 & _)%elem_of_fetchListenHistory
    (j & Hj & Hid2 & _)%elem_of_fetchListenHistory Heq.
  rewrite Hid1, Hid2 in Heq.
  by apply crawl_id_inj in Heq as [? _]; try lia.
Qed.

Lemma fetchListenHistory_ids_fresh_per_second_witness :
  "u1-spotify-1700000000-0"%string ≠ "u1-spotify-1700000001-0"%string.
Proof.
  apply (fetchListenHistory_ids_fresh_per_second 1700000000 1700000001 "u1" "spotify" 0 0
           {| EventID := "u1-spotify-1700000000-0"; UserID := "u1"; SongID := "song-0";
              Provider := "spotify"; ListenedAt := 0 |}
           {| EventID := "u1-spotify-1700000001-0"; UserID := "u1"; SongID := "song-0";
              Provider := "spotify"; ListenedAt := 0 |}).
  - discriminate.
  - vm_compute. left.
  - vm_compute. left.
Defined.
End crawl_ids.

Section crawl_handler.
Import GoStrings CrawlWorker.
Context `{PayloadDecoder}.

(** X20: the handler reports success exactly when the payload decodes
    and the write to Kafka succeeds; a failure to enqueue the next crawl
    does not make it fail. When it reports an error, nothing has been
    enqueued, and a payload that does not decode publishes nothing. *)
Theorem HandleCrawlUserTask_result (env : Env) (b : Backends) (t : Task) :
  ((HandleCrawlUserTask env b t).2 = Ok ()
     ↔ (∃ p, payload_Unmarshal (Payload t) = Ok p) ∧ kafka_fails env = None)
  ∧ ((HandleCrawlUserTask env b t).2 ≠ Ok () → jobs (HandleCrawlUserTask env b t).1 = jobs b)
  ∧ ((∀ p, payload_Unmarshal (Payload t) ≠ Ok p) → (HandleCrawlUserTask env b t).1 = b).
Proof.
  unfold HandleCrawlUserTask, publishEvents, reschedule.
  destruct (payload_Unmarshal (Payload t)) as [p|msg].
  - destruct (kafka_fails env) as [written|]; cbn [fst snd jobs].
    + split; [|split]; [|done|by intros Hbad; destruct (Hbad p)].
      split; [discriminate|]. by intros [_ ?].
    + destruct (enqueue_fails env); cbn [fst snd jobs];
        (split; [|split]; [|done|by intros Hbad; destruct (Hbad p)]);
        (split; [intros _; split; [by exists p|done]|done]).
  - cbn [fst snd]. split; [|done]. split; [discriminate|]. by intros [[p ?] _].
Qed.

(** X21: a crawl that succeeds and enqueues its successor leaves in
    the queue [crawl] one more task, due 24 hours after the clock was
    read; when that task is handled, it publishes, keyed by the same
    user id, the events fetched for the same user and provider since the
    instant the first crawl rescheduled itself. *)
Theorem rescheduled_task_continues_crawl (env env' : Env) (b : Backends) (t : Task)
    (p : CrawlUserPayload) :
  let next := {| TaskUserID := TaskUserID p; TaskProvider := TaskProvider p;
                 Since := now_since env |} in
  payload_Unmarshal (Payload t) = Ok p →
  payload_Unmarshal (marshal_payload next) = Ok next →
  kafka_fails env = None → enqueue_fails env = false → kafka_fails env' = None →
  ∃ s,
    jobs (HandleCrawlUserTask env b t).1 = jobs b ++ [s]
    ∧ ProcessAt s = Some (now_enqueue env + 86400) ∧ Queue s = "crawl"%string
    ∧ Type_ (task s) = TypeCrawlUser
    ∧ topic (HandleCrawlUserTask env' (HandleCrawlUserTask env b t).1 (task s)).1
      = topic (HandleCrawlUserTask env b t).1
        ++ ((λ e, {| Key := TaskUserID p; Data := marshal_event e |})
              <$> fetchListenHistory (now_fetch env') (TaskUserID p) (TaskProvider p)
                    (now_since env)).
Proof.
  intros next Hp Hnext Hk He Hk'.
  assert (Hfirst :
            HandleCrawlUserTask env b t =
              ({| topic := topic b
                      ++ ((λ e, {| Key := UserID e; Data := marshal_event e |})
                            <$> fetchListenHistory (now_fetch env) (TaskUserID p)
                                  (TaskProvider p) (Since p));
                  jobs := jobs b
                      ++ [{| task := NewCrawlUserTask (TaskUserID p) (TaskProvider p)
                                       (now_since env);
                             ProcessAt := Some (now_enqueue env + 24 * 3600);
                             Queue := "crawl" |}] |}, Ok ())).
  { unfold HandleCrawlUserTask. rewrite Hp.
    unfold publishEvents, reschedule. by rewrite Hk, He. }
  rewrite Hfirst. cbn [fst jobs topic]. eexists. split; [done|].
  cbn [ProcessAt Queue task Type_ NewCrawlUserTask]. do 3 (split; [done|]).
  unfold HandleCrawlUserTask.
  change (Payload (NewCrawlUserTask _ _ _)) with (marshal_payload next). rewrite Hnext.
  unfold publishEvents. rewrite Hk'. cbn [topic].
  destruct (reschedule env' _ _ _) as [q ?]. cbn [fst topic TaskUserID TaskProvider Since next].
  reflexivity.
Qed.
End crawl_handler.

Section crawl_sample.
Import CrawlWorker CrawlWorker.Sample.
Local Existing Instance decoder.

Lemma HandleCrawlUserTask_result_witness :
  (HandleCrawlUserTask env idle (NewCrawlUserTask "u1" "spotify" 1769644800)).2 = Ok ().
Proof.
  apply (HandleCrawlUserTask_result env idle (NewCrawlUserTask "u1" "spotify" 1769644800)).
  split; [|reflexivity]. exists first_payload. vm_compute. reflexivity.
Defined.

Lemma rescheduled_task_continues_crawl_witness :
  ∃ s,
    jobs (HandleCrawlUserTask env idle (NewCrawlUserTask "u1" "spotify" 1769644800)).1
      = jobs idle ++ [s]
    ∧ ProcessAt s = Some (now_enqueue env + 86400).
Proof.
  destruct (rescheduled_task_continues_crawl env env idle
              (NewCrawlUserTask "u1" "spotify" 1769644800) first_payload)
    as (s & Hjobs & Hat & _).
  - vm_compute. reflexivity.
  - vm_compute. reflexivity.
  - reflexivity.
  - reflexivity.
  - reflexivity.
  - exists s. split; [exact Hjobs|exact Hat].
Defined.
End crawl_sample.
(** ** The raw event processor *)

Section raw_events.
Import RawEventProcessor.
Context `{JsonDecoder}.

Local Abbreviation put :=
  (λ (m : gmap (string * string * Z * string) (string * string))
     (kv : (string * string * Z * string) * (string * string)), <[kv.1 := kv.2]> m).

(** The rows a list of fetched messages writes, in order. *)
Local Abbreviation writes loc fetched :=
  (omap (λ me : Message * Env,
           match json_Unmarshal (Value me.1) with
           | Ok event =>
               if insert_fails me.2 then None
               else Some (row_key loc event, (SongID event, Provider event))
           | Err _ => None
           end) fetched).

Lemma history_handle_all loc st fetched :
  history (handle_all loc st fetched) = foldl put (history st) (writes loc fetched).
Proof.
  revert st. induction fetched as [|[msg env] l IH]; intros st; [done|].
  change (handle_all loc st ((msg, env) :: l))
    with (handle_all loc (handle loc env st msg) l).
  rewrite IH. cbn [omap list_omap fst snd]. unfold handle, writeEvent.
  destruct (json_Unmarshal (Value msg)) as [event|]; [|done].
  by destruct (insert_fails env).
Qed.

Lemma put_overwritten k v v' m kvs :
  <[k := v]> (foldl put (<[k := v']> m) kvs) = <[k := v]> (foldl put m kvs).
Proof.
  revert m. induction kvs as [|[k0 v0] kvs IH]; intros m; cbn [foldl fst snd].
  - by rewrite insert_insert_eq.
  - destruct (decide (k0 = k)) as [->|Hne].
    + by rewrite insert_insert_eq.
    + by rewrite (insert_insert_ne m k0 k), IH by done.
Qed.

Lemma put_twice m kvs : foldl put (foldl put m kvs) kvs = foldl put m kvs.
Proof.
  induction kvs as [|[k v] kvs IH] using rev_ind; [done|].
  rewrite !foldl_snoc. cbn [fst snd].
  by rewrite put_overwritten, IH.
Qed.

Lemma writes_replay loc (l1 l2 : list (Message * Env)) :
  l1.*1 = l2.*1 →
  (∀ me, me ∈ l1 ++ l2 → insert_fails me.2 = false) →
  writes loc l1 = writes loc l2.
Proof.
  revert l2. induction l1 as [|[m1 e1] l1 IH]; intros [|[m2 e2] l2] Hmsgs Hok;
    try done.
  injection Hmsgs as -> Hmsgs.
  assert (Ha : insert_fails e1 = false) by (apply (Hok (m2, e1)); left).
  assert (Hb : insert_fails e2 = false)
    by (apply (Hok (m2, e2)), elem_of_app; right; left).
  cbn [omap list_omap fst snd]. rewrite Ha, Hb.
  rewrite (IH l2); [done|done|].
  intros me Hin. apply Hok. apply elem_of_app in Hin as [Hin|Hin].
  - right. apply elem_of_app. by left.
  - right. apply elem_of_app. right. by right.
Qed.

(** X22: after a restart the consumer reads again the messages that
    follow the last committed offset. When their writes succeeded the
    first time and succeed again, reading them again changes no row of
    the history table: the insert is an upsert on the primary key. *)
Theorem replay_changes_no_history_row (loc : GoTime.Location) (st : Store)
    (before again replay : list (Message * Env)) :
  replay.*1 = again.*1 →
  (∀ me, me ∈ again ++ replay → insert_fails me.2 = false) →
  history (handle_all loc (handle_all loc st (before ++ again)) replay)
    = history (handle_all loc st (before ++ again)).
Proof.
  intros Hmsgs Hok. rewrite !history_handle_all.
  rewrite (writes_replay loc replay again); [|done|].
  - rewrite omap_app, foldl_app. apply put_twice.
  - intros me Hin. apply Hok. apply elem_of_app. apply elem_of_app in Hin. tauto.
Qed.

(** X23: a message whose write fails is not committed, but the loop
    goes on: once a later message of the same partition is written, the
    committed offset lies beyond the failed message, whose event has no
    row, so a consumer resuming from the committed offset does not read
    it again. *)
Theorem failed_write_skipped_by_later_commit (loc : GoTime.Location)
    (env1 env2 : Env) (st : Store) (msg1 msg2 : Message) (event1 event2 : ListenEvent) :
  json_Unmarshal (Value msg1) = Ok event1 →
  json_Unmarshal (Value msg2) = Ok event2 →
  insert_fails env1 = true →
  insert_fails env2 = false → commit_fails env2 = false →
  Partition msg2 = Partition msg1 → Offset msg1 < Offset msg2 →
  row_key loc event1 ≠ row_key loc event2 →
  history st !! row_key loc event1 = None →
  let st' := handle loc env2 (handle loc env1 st msg1) msg2 in
  history st' !! row_key loc event1 = None
  ∧ ∃ next, offsets st' !! Partition msg1 = Some next ∧ Offset msg1 < next.
Proof.
  intros H1 H2 Hf1 Hf2 Hc2 Hp Ho Hne Hnone. cbv zeta.
  unfold handle, writeEvent. rewrite H1, Hf1, H2, Hf2. cbn [history offsets].
  split.
  - by rewrite lookup_insert_ne.
  - unfold CommitMessages. rewrite Hc2, Hp. exists (Offset msg2 + 1).
    rewrite lookup_insert_eq. split; [done|lia].
Qed.
End raw_events.
(** ** The further properties on the sample data *)

Section further_samples.
Import Sample.
Local Existing Instance exact_hash.

Lemma flush_commits_last_partition_only_witness :
  committed (flush writes_ok
               (accumulate GoTime.UTC redis_up (empty_world, new_Aggregator) e1 m1)).1
    !! Partition m1 = Some (Offset m1 + 1).
Proof.
  apply (proj1 (flush_commits_last_partition_only GoTime.UTC redis_up writes_ok
                  (empty_world, new_Aggregator) e1 m1)).
  reflexivity.
Defined.

Lemma every_delivery_counted_or_tallied_witness :
  total_pending (accumulate_all GoTime.UTC (empty_world, new_Aggregator) deliveries).2
  + dedupCount (accumulate_all GoTime.UTC (empty_world, new_Aggregator) deliveries).2
  = Z.of_nat (length deliveries).
Proof.
  apply (every_delivery_counted_or_tallied GoTime.UTC empty_world deliveries).
  vm_compute. discriminate.
Defined.

Lemma existing_filter_keeps_ttl_witness :
  ttl_at (redis (run (H0 := decoder [e1; e2; e3]) GoTime.UTC
                   (accumulate GoTime.UTC redis_up (empty_world, new_Aggregator) e1 m1)
                   [Fetch m2 redis_down false; Tick writes_ok; Fetch m_bad redis_up false]).1)
    (bloomKey "2026-01-29")
  = Some (Some 691200).
Proof.
  apply (existing_filter_keeps_ttl (H0 := decoder [e1; e2; e3]) GoTime.UTC
           [Fetch m2 redis_down false; Tick writes_ok; Fetch m_bad redis_up false]
           (accumulate GoTime.UTC redis_up (empty_world, new_Aggregator) e1 m1)
           (bloomKey "2026-01-29") (Some 691200)).
  vm_compute. reflexivity.
Defined.


Lemma other_days_unaffected_witness :
  seen (redis (accumulate GoTime.UTC redis_up (empty_world, new_Aggregator) e1 m1).1)
    "2026-01-30" "e1"
  = seen (redis (empty_world, new_Aggregator).1) "2026-01-30" "e1".
Proof.
  apply (other_days_unaffected GoTime.UTC redis_up (empty_world, new_Aggregator) e1 m1
           "2026-01-30" "e1").
  vm_compute. discriminate.
Defined.


Lemma v1_counts_every_delivery_witness :
  default 0 (AggregatorV1.counts
               (AggregatorV1.accumulate_all GoTime.UTC AggregatorV1.new_Aggregator
                  [(e1, m1); (e1, m1_again); (e2, m2)]) !! key_s1)
  = Z.of_nat (length (filter (λ d, event_key GoTime.UTC d.1 = key_s1)
                        [(e1, m1); (e1, m1_again); (e2, m2)])).
Proof.
  apply (v1_counts_every_delivery GoTime.UTC [(e1, m1); (e1, m1_again); (e2, m2)] key_s1).
  vm_compute. discriminate.
Defined.
End further_samples.

Section raw_events_sample.
Import Sample RawEventProcessor RawEventProcessor.Sample.
Local Existing Instance exact_hash.

Lemma replay_changes_no_history_row_witness :
  history (handle_all (H := decoder [e1; e2; e3]) Kolkata
             (handle_all (H := decoder [e1; e2; e3]) Kolkata empty_store
                ([(m1, up)] ++ [(m2, up); (m3, up)]))
             [(m2, up); (m3, up)])
  = history (handle_all (H := decoder [e1; e2; e3]) Kolkata empty_store
               ([(m1, up)] ++ [(m2, up); (m3, up)])).
Proof.
  apply (replay_changes_no_history_row (H := decoder [e1; e2; e3]) Kolkata empty_store
           [(m1, up)] [(m2, up); (m3, up)] [(m2, up); (m3, up)]).
  - reflexivity.
  - intros me Hin.
    repeat (apply elem_of_cons in Hin as [->|Hin]; [reflexivity|]).
    by apply elem_of_nil in Hin.
Defined.

Lemma failed_write_skipped_by_later_commit_witness :
  history (handle (H := decoder [e1; e2; e3]) Kolkata up
             (handle (H := decoder [e1; e2; e3]) Kolkata down empty_store m1) m2)
    !! row_key Kolkata e1 = None
  ∧ ∃ next,
      offsets (handle (H := decoder [e1; e2; e3]) Kolkata up
                 (handle (H := decoder [e1; e2; e3]) Kolkata down empty_store m1) m2)
        !! Partition m1 = Some next
      ∧ Offset m1 < next.
Proof.
  apply (failed_write_skipped_by_later_commit (H := decoder [e1; e2; e3]) Kolkata down up
           empty_store m1 m2 e1 e2).
  - vm_compute. reflexivity.
  - vm_compute. reflexivity.
  - reflexivity.
  - reflexivity.
  - reflexivity.
  - reflexivity.
  - vm_compute. reflexivity.
  - vm_compute. discriminate.
  - reflexivity.
Defined.
End raw_events_sample.
